(** * Aura: voice-trigger detection and safety-state orchestration

    A shallow embedding of the TypeScript sources of Project Aura:

    - [useVoiceActivation] (the speech-recognition hook with its fuzzy
      trigger matcher and [levenshteinDistance]),
    - [useAuraState] (the safety state holder),
    - [ApiService] (transcription, threat detection, alert dispatch),
    - the handlers of [App] that chain them.

    JavaScript strings are modelled as [string], one [ascii] per UTF-16 code
    unit; the model covers the code units below 256 (Basic Latin and
    Latin-1), where [toLowerCase] and [trim] are character-wise. *)

From Stdlib Require Import List Arith Lia Bool Ascii String ZArith QArith.
Import ListNotations.

Local Close Scope Q_scope.
Local Open Scope nat_scope.
Local Open Scope string_scope.
Local Open Scope list_scope.

(** ** JavaScript string primitives *)

Module JsString.

(** [String.prototype.toLowerCase] on one code unit: A-Z, and the Latin-1
      capitals U+00C0..U+00DE except the multiplication sign U+00D7. *)
Definition lower_char (c : ascii) : ascii :=
    let n := nat_of_ascii c in
    if (((65 <=? n) && (n <=? 90))
        || ((192 <=? n) && (n <=? 222) && negb (n =? 215)))%nat
    then ascii_of_nat (n + 32)
    else c.

Fixpoint toLowerCase (s : string) : string :=
    match s with
    | EmptyString => EmptyString
    | String c s' => String (lower_char c) (toLowerCase s')
    end.

(** White space and line terminators stripped by [trim]: TAB, LF, VT, FF,
      CR, SPACE and NBSP. *)
Definition is_space (c : ascii) : bool :=
    let n := nat_of_ascii c in
    (((9 <=? n) && (n <=? 13)) || (n =? 32) || (n =? 160))%nat.

Fixpoint trimStart (s : string) : string :=
    match s with
    | EmptyString => EmptyString
    | String c s' => if is_space c then trimStart s' else s
    end.

(** [trimEnd] keeps a character when it is not a space or when something
      is left after it. *)
Fixpoint trimEnd (s : string) : string :=
    match s with
    | EmptyString => EmptyString
    | String c s' =>
        match trimEnd s' with
        | EmptyString => if is_space c then EmptyString else String c EmptyString
        | t => String c t
        end
    end.

Definition trim (s : string) : string := trimEnd (trimStart s).

(** [s.startsWith(p)] *)
Fixpoint startsWith (s p : string) : bool :=
    match p, s with
    | EmptyString, _ => true
    | String _ _, EmptyString => false
    | String cp p', String cs s' => Ascii.eqb cs cp && startsWith s' p'
    end.

(** [s.includes(p)]: [p] occurs at some position of [s]; the empty string
      occurs in every string. *)
Fixpoint includes (s p : string) : bool :=
    startsWith s p ||
    match s with
    | EmptyString => false
    | String _ s' => includes s' p
    end.

(** [s.replace(' ', '')]: a string pattern replaces the first occurrence
      only. *)
Fixpoint replace_first_space (s : string) : string :=
    match s with
    | EmptyString => EmptyString
    | String c s' =>
        if Ascii.eqb c " "%char then s' else String c (replace_first_space s')
    end.

(** [s.split(' ')]: never empty; the empty string gives one empty word and
      consecutive spaces give empty words. *)
Fixpoint split_space (s : string) : list string :=
    match s with
    | EmptyString => [EmptyString]
    | String c s' =>
        if Ascii.eqb c " "%char then EmptyString :: split_space s'
        else match split_space s' with
             | w :: ws => String c w :: ws
             | [] => [String c EmptyString]
             end
    end.

(** [a || b] on strings: the empty string is falsy. *)
Definition or_else (a b : string) : string :=
    match a with
    | EmptyString => b
    | _ => a
    end.

(** A string of white space only. *)
Fixpoint all_space (s : string) : bool :=
  match s with
  | EmptyString => true
  | String c s' => is_space c && all_space s'
  end.

End JsString.

(** ** Levenshtein distance (useVoiceActivation.ts) *)

Module Levenshtein.

Section Generic.
Context {A : Type} (eqbA : A -> A -> bool).

(** [const cost = a[j - 1] === b[i - 1] ? 0 : 1] *)
Definition cost (x y : A) : nat := if eqbA x y then 0 else 1.

(** [Math.min(up + 1, left + 1, diag + cost)] *)
Definition min3 (x y z : nat) : nat := Nat.min x (Nat.min y z).

(** The inner loop, [for (let j = 1; j <= a.length; j++)], of row [i]:
        [prev] is what is left of row [i-1] from column [j-1] on, [left] is
        [matrix[i][j-1]], [bi] is [b[i-1]].  Each iteration appends
        [matrix[i][j]] to the row. *)
Fixpoint fill_row (bi : A) (a : list A) (prev : list nat) (left : nat)
      : list nat :=
      match a, prev with
      | aj :: a', diag :: ((up :: _) as prev') =>
          let v := min3 (up + 1) (left + 1) (diag + cost aj bi) in
          v :: fill_row bi a' prev' v
      | _, _ => []
      end.

(** Row [i] starts as [matrix[i] = [i]] and is then filled. *)
Definition next_row (a : list A) (prev : list nat) (i : nat) (bi : A)
      : list nat :=
      i :: fill_row bi a prev i.

(** Row 0 after [matrix[0][j] = j] for [j = 0 .. a.length]. *)
Definition first_row (a : list A) : list nat := seq 0 (S (List.length a)).

(** The outer loop, [for (let i = 1; i <= b.length; i++)]: [rows] holds
        the matrix rows [i-1, i-2, .., 0], most recent first. *)
Fixpoint fill (a : list A) (b : list A) (i : nat) (rows : list (list nat))
      : list (list nat) :=
      match b with
      | [] => rows
      | bi :: b' =>
          let prev := hd [] rows in
          fill a b' (S i) (next_row a prev i bi :: rows)
      end.

(** The finished matrix, rows in index order. *)
Definition matrix (a b : list A) : list (list nat) :=
      rev (fill a b 1 [first_row a]).

Definition distance (a b : list A) : nat :=
      match a, b with
      | [], _ => List.length b                (* if (a.length === 0) return b.length *)
      | _, [] => List.length a                (* if (b.length === 0) return a.length *)
      | _, _ => nth (List.length a) (nth (List.length b) (matrix a b) []) 0
      end.

End Generic.

Definition levenshteinDistance (a b : string) : nat :=
    distance Ascii.eqb (list_ascii_of_string a) (list_ascii_of_string b).

End Levenshtein.

Import JsString Levenshtein.

(** ** The fuzzy trigger matcher (useVoiceActivation.ts, [recognition.onresult]) *)

Module TriggerMatcher.

(** The callback given to [some]:
      [levenshteinDistance(word, 'help') <= 1 &&
       normalizedTranscript.includes('aura') ||
       normalizedTranscript.includes('aurora')];
      [&&] binds tighter than [||]. *)
Definition help_word_clause (normalizedTranscript word : string) : bool :=
    ((levenshteinDistance word "help" <=? 1)%nat
       && includes normalizedTranscript "aura")
    || includes normalizedTranscript "aurora".

(** The condition of the [if] in [onresult]. *)
Definition triggerMatches (currentTranscript triggerPhrase : string) : bool :=
    let normalizedTranscript := trim (toLowerCase currentTranscript) in
    let normalizedTrigger := trim (toLowerCase triggerPhrase) in
    includes normalizedTranscript normalizedTrigger
    || includes normalizedTranscript (replace_first_space normalizedTrigger)
    || (levenshteinDistance normalizedTranscript normalizedTrigger <=? 2)%nat
    || existsb (help_word_clause normalizedTranscript)
               (split_space normalizedTranscript).

(** One entry of [event.results]: the transcript of its first alternative
      and its [isFinal] flag. *)
Record SpeechResult := { sr_transcript : string; sr_isFinal : bool }.

(** The loop of [onresult] from [event.resultIndex] on: final pieces and
      interim pieces are concatenated separately. *)
Fixpoint collect (results : list SpeechResult) (finalT interimT : string)
    : string * string :=
    match results with
    | [] => (finalT, interimT)
    | r :: rs =>
        if sr_isFinal r
        then collect rs (finalT ++ sr_transcript r) interimT
        else collect rs finalT (interimT ++ sr_transcript r)
    end.

(** [const currentTranscript = finalTranscript || interimTranscript] *)
Definition currentTranscript (resultIndex : nat) (results : list SpeechResult)
    : string :=
    let '(f, i) := collect (skipn resultIndex results) "" "" in
    or_else f i.

End TriggerMatcher.

(** ** The matcher as section 4.2 of the specification words it *)

Module MatcherSpec.

(** Removal of all internal white space. *)
Fixpoint remove_spaces (s : string) : string :=
    match s with
    | EmptyString => EmptyString
    | String c s' =>
        if is_space c then remove_spaces s' else String c (remove_spaces s')
    end.

(** "(word within distance 1 of 'help') AND (contains 'aura' OR contains
      'aurora')" *)
Definition condition4 (t : string) : bool :=
    existsb (fun word => (levenshteinDistance word "help" <=? 1)%nat)
            (split_space t)
    && (includes t "aura" || includes t "aurora").

Definition matches_spec (transcript triggerPhrase : string) : bool :=
    let t := trim (toLowerCase transcript) in
    let p := trim (toLowerCase triggerPhrase) in
    includes t p
    || includes t (remove_spaces p)
    || (levenshteinDistance t p <=? 2)%nat
    || condition4 t.

End MatcherSpec.

(** ** Edit scripts: the unit-cost edit distance of the specification *)

Module EditScript.

Section Scripts.
Context {A : Type}.

Inductive op : Type :=
    | Keep              (* copy one character *)
    | Subst (y : A)     (* replace one character by [y] *)
    | Ins (y : A)       (* insert [y] *)
    | Del.              (* drop one character *)

(** Running a script over [a], left to right; [None] when the script
        does not fit [a]. *)
Fixpoint apply_script (s : list op) (a : list A) : option (list A) :=
      match s, a with
      | [], [] => Some []
      | [], _ :: _ => None
      | Keep :: s', x :: a' => option_map (cons x) (apply_script s' a')
      | Subst y :: s', _ :: a' => option_map (cons y) (apply_script s' a')
      | Ins y :: s', _ => option_map (cons y) (apply_script s' a)
      | Del :: s', _ :: a' => apply_script s' a'
      | _ :: _, [] => None
      end.

(** Insertion, deletion and substitution cost 1 each; copying is free. *)
Definition op_cost (o : op) : nat :=
      match o with Keep => 0 | _ => 1 end.

Definition script_cost (s : list op) : nat :=
      fold_right (fun o n => op_cost o + n) 0 s.

End Scripts.

Arguments op A : clear implicits.

Section Recursive.
Context {A : Type} (eqbA : A -> A -> bool).

(** The textbook recurrence of the edit distance. *)
Fixpoint lev_rec (a : list A) : list A -> nat :=
      fix inner (b : list A) : nat :=
        match a, b with
        | [], _ => List.length b
        | _, [] => List.length a
        | x :: a', y :: b' =>
            min3 (lev_rec a' b + 1) (inner b' + 1) (lev_rec a' b' + cost eqbA x y)
        end.

(** Row [i] of the matrix as the recurrence gives it: [ra] and [rb] are
        the reversed prefixes already consumed. *)
Fixpoint row_spec (ra a rb : list A) : list nat :=
      lev_rec ra rb ::
      match a with
      | [] => []
      | x :: a' => row_spec (x :: ra) a' rb
      end.

End Recursive.

End EditScript.

(** ** Completions of asynchronous code: a value or a thrown error *)

Module Js.

(** The outcome of awaiting a promise or running a block: [Normal] for a
    value, [Throw] for a rejection or thrown [Error] with its message. *)
Inductive Completion (A : Type) : Type :=
| Normal (a : A)
| Throw (e : string).

Arguments Normal {A} a.
Arguments Throw {A} e.

(** Code running over a store [S]: it may change the store and either
    produces a value or throws; the store survives a throw. *)
Definition M (S A : Type) : Type := S -> Completion A * S.

Definition ret {S A} (a : A) : M S A := fun s => (Normal a, s).

Definition throw {S A} (e : string) : M S A := fun s => (Throw e, s).

Definition bind {S A B} (m : M S A) (k : A -> M S B) : M S B :=
  fun s =>
    match m s with
    | (Normal a, s') => k a s'
    | (Throw e, s') => (Throw e, s')
    end.

(** [await p] for a promise whose outcome is known. *)
Definition await {S A} (c : Completion A) : M S A := fun s => (c, s).

(** [try { body } catch (error) { handler }] *)
Definition try_catch {S A} (body : M S A) (handler : string -> M S A) : M S A :=
  fun s =>
    match body s with
    | (Normal a, s') => (Normal a, s')
    | (Throw e, s') => handler e s'
    end.

(** [try { body } finally { cleanup }], for a [cleanup] that does not throw. *)
Definition try_finally {S A} (body : M S A) (cleanup : S -> S) : M S A :=
  fun s => let '(c, s') := body s in (c, cleanup s').

Definition modify {S} (f : S -> S) : M S unit := fun s => (Normal tt, f s).

Definition gets {S A} (f : S -> A) : M S A := fun s => (Normal (f s), s).

(** [if (c) { m }] *)
Definition when {S} (c : bool) (m : M S unit) : M S unit :=
  if c then m else ret tt.

End Js.

Import Js.

Declare Scope js_scope.
Delimit Scope js_scope with js.
Notation "x <- m ;; k" := (bind m (fun x => k))
  (at level 61, m at next level, right associativity) : js_scope.
Notation "m ;;; k" := (bind m (fun _ => k))
  (at level 61, right associativity) : js_scope.

(** ** Shared types (types/index.ts) *)

Module Types.

Record EmergencyContact := {
  contact_id : string;
  contact_name : string;
  phoneNumber : string
}.

Record UserProfile := {
  id : string;
  name : string;
  emergencyContacts : list EmergencyContact;
  voiceActivationEnabled : bool;
  voiceActivationLanguage : string
}.

(** Coordinates are numbers the code only copies; a finite double is a
    rational. *)
Record Location := {
  latitude : Q;
  longitude : Q
}.

Inductive AuraState := IDLE | ACTIVE | ALERT | SOS_ACTIVE | EMERGENCY_VOICE.

(** The [data] object of an alert response, each field possibly absent. *)
Record AlertData := {
  contactsNotified : option Z;
  data_location : option Location;
  timestamp : option string
}.

Record ApiResponse := {
  success : bool;
  message : option string;
  data : option AlertData
}.

Record AudioProcessingResult := {
  transcription : string;
  threat_detected : bool;
  ai_response : string
}.

End Types.

Import Types.

(** ** External collaborators *)

Module Collaborators.

(** What [fetch] resolves to: the status and the outcome of reading the
    body ([response.json()], [response.blob()]). *)
Record Response (B : Type) := {
  ok : bool;
  statusText : string;
  body : Completion B
}.

Arguments ok {B} r.
Arguments statusText {B} r.
Arguments body {B} r.

(** [result.text] of the transcription endpoint. *)
Record TranscriptionBody := { text : option string }.

(** The chat endpoint's [result.choices]: absent, or a list whose entries
    give [message?.content] when present. *)
Record ChatBody := { choices : option (list (option string)) }.

Inductive GeoErrorCode := PERMISSION_DENIED | POSITION_UNAVAILABLE | TIMEOUT | OTHER_CODE.

(** What the browser answers to [getCurrentPosition]. *)
Inductive GeoOutcome :=
| GeoUnsupported                    (* no [navigator.geolocation] *)
| GeoPosition (coords : Location)
| GeoFailure (code : GeoErrorCode).

(** The world outside the application during one handler run. *)
Record Env := {
  VITE_SUPABASE_URL : option string;
  VITE_SUPABASE_ANON_KEY : option string;
  transcription_api : Completion (Response TranscriptionBody);
  chat_api : string -> string -> Completion (Response ChatBody);
  tts_api : string -> Completion (Response nat);       (* the blob's size *)
  alert_api : string -> string -> Location -> Completion (Response ApiResponse);
  geolocation : GeoOutcome;
  audio_playback : Completion unit;                    (* onended / onerror *)
  has_speechSynthesis : bool;
  voices : list string;                                (* names of getVoices() *)
  startRecording_api : Completion unit;
  now_iso : string                                     (* new Date().toISOString() *)
}.

(** Calls made to the outside, in order of occurrence, and the entries
    into the two alert methods of the service. *)
Inductive Call :=
| CallTranscribe
| CallChat (systemPrompt userText : string)
| CallTts (responseText : string)
| CallAlert (endpoint userId : string) (location : Location)
| EnterSmsAlert (userId : string) (location : Location)   (* triggerSmsAlert entered *)
| EnterSOSAlert (userId : string) (location : Location)   (* triggerSOSAlert entered *)
| CallGeolocation
| CallPlayAudio
| CallSpeak (utterance : string) (voice : option string)
| CallWait (ms : Z)
| CallCancelSpeech
| CallStartRecording
| CallStopRecording
| CallAlertDialog (text : string).

End Collaborators.

Import Collaborators.

(** ** The safety state holder (hooks/useAuraState.ts) *)

Module UseAuraState.

Record AuraHook := {
  state : AuraState;
  isListening : bool;
  transcription : string;
  aiResponse : string;
  sosAlertResult : option ApiResponse
}.

(** The initial values of the five [useState] cells. *)
Definition initial : AuraHook :=
  {| state := IDLE; isListening := false; transcription := "";
     aiResponse := ""; sosAlertResult := None |}.

Definition activateAura (h : AuraHook) : AuraHook :=
  {| state := ACTIVE; isListening := true;
     transcription := transcription h; aiResponse := aiResponse h;
     sosAlertResult := sosAlertResult h |}.

Definition deactivateAura (h : AuraHook) : AuraHook :=
  {| state := IDLE; isListening := false;
     transcription := ""; aiResponse := "";
     sosAlertResult := sosAlertResult h |}.

Definition triggerAlert (h : AuraHook) : AuraHook :=
  {| state := ALERT; isListening := isListening h;
     transcription := transcription h; aiResponse := aiResponse h;
     sosAlertResult := sosAlertResult h |}.

Definition triggerSOS (h : AuraHook) : AuraHook :=
  {| state := SOS_ACTIVE; isListening := isListening h;
     transcription := transcription h; aiResponse := aiResponse h;
     sosAlertResult := sosAlertResult h |}.

Definition triggerEmergencyVoice (h : AuraHook) : AuraHook :=
  {| state := EMERGENCY_VOICE; isListening := isListening h;
     transcription := transcription h; aiResponse := aiResponse h;
     sosAlertResult := sosAlertResult h |}.

Definition resetToIdle (h : AuraHook) : AuraHook :=
  {| state := IDLE; isListening := false;
     transcription := ""; aiResponse := "";
     sosAlertResult := None |}.

Definition updateTranscription (text : string) (h : AuraHook) : AuraHook :=
  {| state := state h; isListening := isListening h;
     transcription := text; aiResponse := aiResponse h;
     sosAlertResult := sosAlertResult h |}.

Definition updateAiResponse (response : string) (h : AuraHook) : AuraHook :=
  {| state := state h; isListening := isListening h;
     transcription := transcription h; aiResponse := response;
     sosAlertResult := sosAlertResult h |}.

Definition updateSOSResult (result : ApiResponse) (h : AuraHook) : AuraHook :=
  {| state := state h; isListening := isListening h;
     transcription := transcription h; aiResponse := aiResponse h;
     sosAlertResult := Some result |}.

(** The operations that write [state]. *)
Inductive Operation :=
| OpActivate | OpDeactivate | OpTriggerAlert | OpTriggerSOS
| OpTriggerEmergencyVoice | OpResetToIdle.

Definition run_op (o : Operation) : AuraHook -> AuraHook :=
  match o with
  | OpActivate => activateAura
  | OpDeactivate => deactivateAura
  | OpTriggerAlert => triggerAlert
  | OpTriggerSOS => triggerSOS
  | OpTriggerEmergencyVoice => triggerEmergencyVoice
  | OpResetToIdle => resetToIdle
  end.

(** The state each operation writes. *)
Definition target (o : Operation) : AuraState :=
  match o with
  | OpActivate => ACTIVE
  | OpDeactivate => IDLE
  | OpTriggerAlert => ALERT
  | OpTriggerSOS => SOS_ACTIVE
  | OpTriggerEmergencyVoice => EMERGENCY_VOICE
  | OpResetToIdle => IDLE
  end.

Definition run_ops (ops : list Operation) (h : AuraHook) : AuraHook :=
  fold_left (fun h o => run_op o h) ops h.

End UseAuraState.

(** ** The transition table of section 4.3 of the specification *)

Module SafetySpec.
Import UseAuraState.

(** The edges of the table: [edge from op to]. *)
Definition edge (from : AuraState) (o : Operation) (to : AuraState) : bool :=
  match o, from, to with
  | OpActivate, IDLE, ACTIVE => true
  | OpDeactivate, ACTIVE, IDLE => true
  | OpTriggerAlert, ACTIVE, ALERT => true
  | OpTriggerSOS, (IDLE | ACTIVE | ALERT), SOS_ACTIVE => true
  | OpTriggerEmergencyVoice, IDLE, EMERGENCY_VOICE => true
  | OpResetToIdle, _, IDLE => true
  | _, _, _ => false
  end.

(** Every step of a run of operations is an edge of the table. *)
Fixpoint along_edges (ops : list Operation) (h : AuraHook) : bool :=
  match ops with
  | [] => true
  | o :: ops' =>
      edge (state h) o (state (run_op o h)) && along_edges ops' (run_op o h)
  end.

End SafetySpec.

(** ** Geolocation (hooks/useLocation.ts) *)

Module UseLocation.

Record LocationHook := {
  location : option Location;
  isLoading : bool;
  error : option string
}.

Definition initial : LocationHook :=
  {| location := None; isLoading := false; error := None |}.

(** The message chosen by the [switch] on [error.code]. *)
Definition errorMessage (code : GeoErrorCode) : string :=
  match code with
  | PERMISSION_DENIED => "Location access denied by user"
  | POSITION_UNAVAILABLE => "Location information unavailable"
  | TIMEOUT => "Location request timed out"
  | OTHER_CODE => "Unable to retrieve location"
  end.

(** [getCurrentLocation]: the promise's outcome and the hook's cells after
    it settled. *)
Definition getCurrentLocation (geo : GeoOutcome) (h : LocationHook)
  : Completion Location * LocationHook :=
  match geo with
  | GeoUnsupported =>
      let err := "Geolocation is not supported by this browser" in
      (Throw err, {| location := location h; isLoading := false; error := Some err |})
  | GeoPosition coords =>
      (Normal coords, {| location := Some coords; isLoading := false; error := None |})
  | GeoFailure code =>
      (Throw (errorMessage code),
       {| location := location h; isLoading := false;
          error := Some (errorMessage code) |})
  end.

End UseLocation.

(** ** The application store *)

Module Store.
Import UseAuraState.

Inductive View := home | settings | permissions | sos_confirmation | fake_call.

Record AppState := {
  currentView : View;
  userProfile : UserProfile;
  isProcessing : bool;
  sosProcessing : bool;
  emergencyVoiceActive : bool;
  aura : AuraHook;
  loc : UseLocation.LocationHook;
  audioBlob : bool                     (* [audio.audioBlob] is set *)
}.

(** The application's cells and the calls made so far, latest last. *)
Record World := {
  app_state : AppState;
  calls : list Call
}.

Definition on_app (f : AppState -> AppState) (w : World) : World :=
  {| app_state := f (app_state w); calls := calls w |}.

Definition set_currentView (v : View) (a : AppState) : AppState :=
  {| currentView := v; userProfile := userProfile a;
     isProcessing := isProcessing a; sosProcessing := sosProcessing a;
     emergencyVoiceActive := emergencyVoiceActive a; aura := aura a;
     loc := loc a; audioBlob := audioBlob a |}.

Definition set_isProcessing (b : bool) (a : AppState) : AppState :=
  {| currentView := currentView a; userProfile := userProfile a;
     isProcessing := b; sosProcessing := sosProcessing a;
     emergencyVoiceActive := emergencyVoiceActive a; aura := aura a;
     loc := loc a; audioBlob := audioBlob a |}.

Definition set_sosProcessing (b : bool) (a : AppState) : AppState :=
  {| currentView := currentView a; userProfile := userProfile a;
     isProcessing := isProcessing a; sosProcessing := b;
     emergencyVoiceActive := emergencyVoiceActive a; aura := aura a;
     loc := loc a; audioBlob := audioBlob a |}.

Definition set_emergencyVoiceActive (b : bool) (a : AppState) : AppState :=
  {| currentView := currentView a; userProfile := userProfile a;
     isProcessing := isProcessing a; sosProcessing := sosProcessing a;
     emergencyVoiceActive := b; aura := aura a;
     loc := loc a; audioBlob := audioBlob a |}.

Definition on_aura (f : AuraHook -> AuraHook) (a : AppState) : AppState :=
  {| currentView := currentView a; userProfile := userProfile a;
     isProcessing := isProcessing a; sosProcessing := sosProcessing a;
     emergencyVoiceActive := emergencyVoiceActive a; aura := f (aura a);
     loc := loc a; audioBlob := audioBlob a |}.

Definition set_loc (l : UseLocation.LocationHook) (a : AppState) : AppState :=
  {| currentView := currentView a; userProfile := userProfile a;
     isProcessing := isProcessing a; sosProcessing := sosProcessing a;
     emergencyVoiceActive := emergencyVoiceActive a; aura := aura a;
     loc := l; audioBlob := audioBlob a |}.

Definition set_audioBlob (b : bool) (a : AppState) : AppState :=
  {| currentView := currentView a; userProfile := userProfile a;
     isProcessing := isProcessing a; sosProcessing := sosProcessing a;
     emergencyVoiceActive := emergencyVoiceActive a; aura := aura a;
     loc := loc a; audioBlob := b |}.

(** Recording a call to the outside. *)
Definition log (c : Call) : M World unit :=
  modify (fun w => {| app_state := app_state w; calls := calls w ++ [c] |}).

Definition update (f : AppState -> AppState) : M World unit :=
  modify (on_app f).

End Store.

Import Store.

(** ** The API service (services/apiService.ts) *)

Module ApiService.

Local Open Scope js_scope.

(** [import.meta.env.X || 'placeholder'] *)
Definition env_or (v : option string) (placeholder : string) : string :=
  or_else (match v with Some x => x | None => "" end) placeholder.

Definition SUPABASE_URL (env : Env) : string :=
  env_or (VITE_SUPABASE_URL env) "your-supabase-url".

Definition SUPABASE_ANON_KEY (env : Env) : string :=
  env_or (VITE_SUPABASE_ANON_KEY env) "your-supabase-anon-key".

Definition baseUrl (env : Env) : string := SUPABASE_URL env ++ "/functions/v1".

Definition is_empty (s : string) : bool :=
  match s with EmptyString => true | _ => false end.

(** [!SUPABASE_URL || SUPABASE_URL === 'your-supabase-url' ||
     !SUPABASE_ANON_KEY || SUPABASE_ANON_KEY === 'your-supabase-anon-key'] *)
Definition supabase_unconfigured (env : Env) : bool :=
  is_empty (SUPABASE_URL env)
  || String.eqb (SUPABASE_URL env) "your-supabase-url"
  || is_empty (SUPABASE_ANON_KEY env)
  || String.eqb (SUPABASE_ANON_KEY env) "your-supabase-anon-key".

Definition emergencyWarnings : list string :=
  [ "Hey! I can see you on camera right now. Step away from that person immediately.";
    "This is a monitored safety call. I'm recording everything and your location is being tracked. Back off now!";
    "Police have been notified and are en route to your exact location. I repeat - authorities are on the way. Leave immediately!";
    "This is your final warning. Emergency services are 2 minutes away. You are being recorded and identified. Move away now!" ].

(** The mock transcription returned when the transcription call fails. *)
Definition mock_transcription : string :=
  "Someone is talking to me and I'm not sure about their intentions.".

Definition transcribeAudio (env : Env) : M World string :=
  try_catch
    (log CallTranscribe ;;;
     response <- await (transcription_api env) ;;
     if negb (ok response)
     then throw ("Transcription failed: " ++ statusText response)
     else
       result <- await (body response) ;;
       ret (or_else (match text result with Some t => t | None => "" end) ""))
    (fun _ => ret mock_transcription).

Definition assertive_prompt : string :=
  "You are Aura, a personal safety AI. The situation has escalated. Change your tone to be loud, assertive, and official. Announce that this is a monitored safety call, that audio is being recorded, and that the user's location has been shared with authorities. Address the potential aggressor directly. Keep responses under 50 words and be direct.".

Definition calm_prompt : string :=
  "You are Aura, a personal safety AI. You are on a simulated phone call with me. Your tone is calm, clear, and reassuring. Respond as if you are a friend or family member on the phone, asking clarifying questions like 'What's going on?' or 'Describe them to me'. Keep responses under 30 words.".

Definition assertive_mock : string :=
  "This call is being monitored and recorded. The user's location has been shared with emergency services. Please step away immediately.".

Definition calm_mock : string :=
  "Hey, what's going on? Are you okay? Can you describe what's happening?".

Definition empty_content_reply : string :=
  "I understand. Can you tell me more about what's happening?".

(** [result.choices[0]?.message?.content || '...']: reading index 0 of an
    absent [choices] throws a TypeError. *)
Definition first_content (result : ChatBody) : Completion string :=
  match choices result with
  | None => Throw "TypeError: Cannot read properties of undefined (reading '0')"
  | Some l =>
      Normal (or_else (match nth_error l 0 with
                       | Some (Some c) => c
                       | _ => ""
                       end)
                      empty_content_reply)
  end.

Definition getAIResponse (env : Env) (transcribedText : string)
  (isAssertiveMode : bool) : M World string :=
  try_catch
    (let systemPrompt := if isAssertiveMode then assertive_prompt else calm_prompt in
     log (CallChat systemPrompt transcribedText) ;;;
     response <- await (chat_api env systemPrompt transcribedText) ;;
     if negb (ok response)
     then throw ("AI response failed: " ++ statusText response)
     else
       result <- await (body response) ;;
       await (first_content result))
    (fun _ => ret (if isAssertiveMode then assertive_mock else calm_mock)).

(** The result is the size of the blob; the empty [new Blob()] has size 0. *)
Definition generateSpeech (env : Env) (responseText : string) : M World nat :=
  try_catch
    (log (CallTts responseText) ;;;
     response <- await (tts_api env responseText) ;;
     if negb (ok response)
     then throw ("Speech generation failed: " ++ statusText response)
     else await (body response))
    (fun _ => ret 0).

Definition sms_mock_unconfigured : ApiResponse :=
  {| success := true;
     message := Some "Emergency alert sent successfully (mock response - Supabase not configured)";
     data := None |}.

Definition sms_mock : ApiResponse :=
  {| success := true;
     message := Some "Emergency alert sent successfully (mock response)";
     data := None |}.

Definition triggerSmsAlert (env : Env) (userId : string) (location : Location)
  : M World ApiResponse :=
  log (EnterSmsAlert userId location) ;;;
  try_catch
    (if supabase_unconfigured env
     then ret sms_mock_unconfigured
     else
       let endpoint := (baseUrl env ++ "/send-aura-alert")%string in
       log (CallAlert endpoint userId location) ;;;
       response <- await (alert_api env endpoint userId location) ;;
       if negb (ok response)
       then throw ("Alert failed: " ++ statusText response)
       else await (body response))
    (fun _ => ret sms_mock).

Definition sos_mock_data (env : Env) (location : Location) : AlertData :=
  {| contactsNotified := Some 3%Z;
     data_location := Some location;
     timestamp := Some (now_iso env) |}.

Definition sos_mock_unconfigured (env : Env) (location : Location) : ApiResponse :=
  {| success := true;
     message := Some "Critical SOS alert sent successfully (mock response - Supabase not configured)";
     data := Some (sos_mock_data env location) |}.

Definition sos_mock (env : Env) (location : Location) : ApiResponse :=
  {| success := true;
     message := Some "Critical SOS alert sent successfully (mock response)";
     data := Some (sos_mock_data env location) |}.

Definition triggerSOSAlert (env : Env) (userId : string) (location : Location)
  : M World ApiResponse :=
  log (EnterSOSAlert userId location) ;;;
  try_catch
    (if supabase_unconfigured env
     then ret (sos_mock_unconfigured env location)
     else
       let endpoint := (baseUrl env ++ "/send-sos-alert")%string in
       log (CallAlert endpoint userId location) ;;;
       response <- await (alert_api env endpoint userId location) ;;
       if negb (ok response)
       then throw ("SOS Alert failed: " ++ statusText response)
       else await (body response))
    (fun _ => ret (sos_mock env location)).

(** The mock returned when the collaborator gave no answer. *)
Definition sms_degraded (env : Env) : ApiResponse :=
  if supabase_unconfigured env then sms_mock_unconfigured else sms_mock.

(** The mock of the SOS alert, with its fixed count of contacts. *)
Definition sos_degraded (env : Env) (location : Location) : ApiResponse :=
  if supabase_unconfigured env
  then sos_mock_unconfigured env location
  else sos_mock env location.

Definition threatKeywords : list string :=
  [ "help me"; "help"; "go away"; "leave me alone"; "stop"; "no";
    "scared"; "afraid"; "uncomfortable"; "threatening"; "following";
    "emergency"; "call police"; "danger"; "unsafe" ].

(** The transcription call fails: [fetch] rejects, the status is not ok, or
    reading the body throws. *)
Definition transcription_fails (env : Env) : bool :=
  match transcription_api env with
  | Throw _ => true
  | Normal response =>
      negb (ok response)
      || match body response with Throw _ => true | Normal _ => false end
  end.

(** The notification collaborator answered: the service is configured, the
    request succeeded and the body was read. *)
Definition collaborator_answer (env : Env) (path userId : string)
  (location : Location) : option ApiResponse :=
  if supabase_unconfigured env then None
  else match alert_api env (baseUrl env ++ path)%string userId location with
       | Throw _ => None
       | Normal response =>
           if ok response
           then match body response with
                | Normal r => Some r
                | Throw _ => None
                end
           else None
       end.

Definition detectThreat (transcribedText : string) : bool :=
  let lowerText := toLowerCase transcribedText in
  existsb (fun keyword => includes lowerText keyword) threatKeywords.

Definition processAudioWorkflow (env : Env) : M World AudioProcessingResult :=
  try_catch
    (transcription <- transcribeAudio env ;;
     let threatDetected := detectThreat transcription in
     aiResponse <- getAIResponse env transcription threatDetected ;;
     ret {| transcription := transcription;
            threat_detected := threatDetected;
            ai_response := aiResponse |})
    (fun error => throw error).

Definition playAudioResponse (env : Env) (responseText : string) : M World unit :=
  try_catch
    (size <- generateSpeech env responseText ;;
     if (0 <? size)%nat
     then log CallPlayAudio ;;; await (audio_playback env)
     else when (has_speechSynthesis env) (log (CallSpeak responseText None)))
    (fun error => throw error).

(** [voice.name.toLowerCase().includes('male') || ...('david') || ...('daniel')] *)
Definition is_male_voice (voiceName : string) : bool :=
  includes (toLowerCase voiceName) "male"
  || includes (toLowerCase voiceName) "david"
  || includes (toLowerCase voiceName) "daniel".

(** The body of the warning loop from index [i] on; [n] is
    [this.emergencyWarnings.length]. *)
Fixpoint play_warnings_from (env : Env) (n i : nat) (ws : list string)
  : M World unit :=
  match ws with
  | [] => ret tt
  | warning :: ws' =>
      when (has_speechSynthesis env)
        (log (CallSpeak warning (find is_male_voice (voices env))) ;;;
         when (i <? n - 1)%nat (log (CallWait 10000%Z))) ;;;
      play_warnings_from env n (S i) ws'
  end.

Definition playEmergencyWarnings (env : Env) : M World unit :=
  try_catch
    (play_warnings_from env (List.length emergencyWarnings) 0 emergencyWarnings)
    (fun error => throw error).

Definition stopEmergencyWarnings (env : Env) : M World unit :=
  when (has_speechSynthesis env) (log CallCancelSpeech).

(** The reply [getAIResponse] settles on. *)
Definition chat_reply (env : Env) (transcribedText : string) (isAssertiveMode : bool)
  : string :=
  let systemPrompt := if isAssertiveMode then assertive_prompt else calm_prompt in
  let mock := if isAssertiveMode then assertive_mock else calm_mock in
  match chat_api env systemPrompt transcribedText with
  | Throw _ => mock
  | Normal response =>
      if ok response
      then match body response with
           | Throw _ => mock
           | Normal result =>
               match first_content result with
               | Normal c => c
               | Throw _ => mock
               end
           end
      else mock
  end.

(** The calls [playAudioResponse] makes. *)
Definition playback_calls (env : Env) (responseText : string) : list Call :=
  CallTts responseText ::
  (if (0 <? (match tts_api env responseText with
             | Normal response =>
                 if ok response
                 then match body response with Normal n => n | Throw _ => 0 end
                 else 0
             | Throw _ => 0
             end))%nat
   then [CallPlayAudio]
   else if has_speechSynthesis env then [CallSpeak responseText None] else []).

(** The chat call fails: [fetch] rejects, the status is not ok, reading the
    body throws, or the body has no [choices]. *)
Definition chat_fails (env : Env) (systemPrompt userText : string) : bool :=
  match chat_api env systemPrompt userText with
  | Throw _ => true
  | Normal response =>
      negb (ok response)
      || match body response with
         | Throw _ => true
         | Normal result =>
             match choices result with None => true | Some _ => false end
         end
  end.

(** The text [transcribeAudio] settles on. *)
Definition transcribed_text (env : Env) : string :=
  match transcription_api env with
  | Throw _ => mock_transcription
  | Normal response =>
      if ok response
      then match body response with
           | Normal result => match text result with Some t => t | None => "" end
           | Throw _ => mock_transcription
           end
      else mock_transcription
  end.

(** The size of the blob [generateSpeech] settles on. *)
Definition speech_size (env : Env) (responseText : string) : nat :=
  match tts_api env responseText with
  | Normal response =>
      if ok response
      then match body response with Normal n => n | Throw _ => 0 end
      else 0
  | Throw _ => 0
  end.

(** The warnings spoken in order, with a wait of 10 s between two of them
    and none after the last. *)
Fixpoint speak_and_wait (voice : option string) (ws : list string) : list Call :=
  match ws with
  | [] => []
  | [w] => [CallSpeak w voice]
  | w :: ws' => CallSpeak w voice :: CallWait 10000%Z :: speak_and_wait voice ws'
  end.

(** The result [processAudioWorkflow] settles on. *)
Definition pipeline_result (env : Env) : AudioProcessingResult :=
  {| transcription := transcribed_text env;
     threat_detected := detectThreat (transcribed_text env);
     ai_response := chat_reply env (transcribed_text env)
                      (detectThreat (transcribed_text env)) |}.

(** Playing [responseText] throws: speech was synthesised and the audio
    element reports an error. *)
Definition playback_throws (env : Env) (responseText : string) : bool :=
  (0 <? speech_size env responseText)%nat
  && match audio_playback env with Throw _ => true | Normal _ => false end.

End ApiService.

(** ** The handlers of the application (App.tsx) *)

Module App.
Import UseAuraState ApiService.

Local Open Scope js_scope.

(** [await location.getCurrentLocation()] *)
Definition getCurrentLocation (env : Env) : M World Location :=
  log CallGeolocation ;;;
  (fun w =>
     let '(c, l) := UseLocation.getCurrentLocation (geolocation env) (loc (app_state w)) in
     (c, on_app (set_loc l) w)).

(** The object stored when [handleSOSActivate] catches an error. *)
Definition sos_error_result (env : Env) : ApiResponse :=
  {| success := false;
     message := Some "Error sending alert, but emergency contacts may have been notified";
     data := Some {| contactsNotified := Some 0%Z;
                     data_location := None;
                     timestamp := Some (now_iso env) |} |}.

(** The coordinates sent when the position is not known. *)
Definition fallback_location : Location :=
  {| latitude := 0%Q; longitude := 0%Q |}.

Definition handleSOSActivate (env : Env) : M World unit :=
  userId <- gets (fun w => id (userProfile (app_state w))) ;;
  update (set_sosProcessing true) ;;;
  try_finally
    (try_catch
       (update (on_aura triggerSOS) ;;;
        currentLocation <- getCurrentLocation env ;;
        result <- triggerSOSAlert env userId currentLocation ;;
        update (on_aura (updateSOSResult result)) ;;;
        update (set_currentView sos_confirmation))
       (fun _ =>
          update (on_aura (updateSOSResult (sos_error_result env))) ;;;
          update (set_currentView sos_confirmation)))
    (on_app (set_sosProcessing false)).

(** The effect on [audio.audioBlob] and [aura.isListening]. *)
Definition processAudio (env : Env) : M World unit :=
  userId <- gets (fun w => id (userProfile (app_state w))) ;;
  hasBlob <- gets (fun w => audioBlob (app_state w)) ;;
  listening <- gets (fun w => isListening (aura (app_state w))) ;;
  when (hasBlob && listening)
    (update (set_isProcessing true) ;;;
     try_finally
       (try_catch
          (result <- processAudioWorkflow env ;;
           update (on_aura (updateTranscription (Types.transcription result))) ;;;
           update (on_aura (updateAiResponse (ai_response result))) ;;;
           playAudioResponse env (ai_response result) ;;;
           when (threat_detected result)
             (update (on_aura triggerAlert) ;;;
              try_catch
                (currentLocation <- getCurrentLocation env ;;
                 triggerSmsAlert env userId currentLocation ;;;
                 ret tt)
                (fun _ =>
                   triggerSmsAlert env userId fallback_location ;;;
                   ret tt)) ;;;
           update (set_audioBlob false))
          (fun _ => ret tt))
       (on_app (set_isProcessing false))).

Definition handleAuraActivate (env : Env) : M World unit :=
  try_catch
    (update (on_aura activateAura) ;;;
     log CallStartRecording ;;;
     await (startRecording_api env))
    (fun _ =>
       log (CallAlertDialog "Unable to access microphone. Please check permissions and try again.") ;;;
       update (on_aura deactivateAura)).

Definition handleAuraDeactivate : M World unit :=
  update (on_aura deactivateAura) ;;;
  log CallStopRecording.

Definition handleEmergencyVoiceActivate (env : Env) : M World unit :=
  userId <- gets (fun w => id (userProfile (app_state w))) ;;
  try_catch
    (update (on_aura triggerEmergencyVoice) ;;;
     update (set_emergencyVoiceActive true) ;;;
     update (set_currentView fake_call) ;;;
     currentLocation <- getCurrentLocation env ;;
     triggerSmsAlert env userId currentLocation ;;;
     ret tt)
    (fun _ => ret tt).

Definition handleCallAnswered (env : Env) : M World unit :=
  try_catch (playEmergencyWarnings env) (fun _ => ret tt).

Definition handleEndCall (env : Env) : M World unit :=
  stopEmergencyWarnings env ;;;
  update (on_aura resetToIdle) ;;;
  update (set_emergencyVoiceActive false) ;;;
  update (set_currentView home).

Definition handleAllClear (env : Env) : M World unit :=
  userId <- gets (fun w => id (userProfile (app_state w))) ;;
  try_catch
    (currentLocation <- getCurrentLocation env ;;
     triggerSmsAlert env userId currentLocation ;;;
     update (on_aura resetToIdle) ;;;
     update (set_currentView home))
    (fun _ =>
       update (on_aura resetToIdle) ;;;
       update (set_currentView home)).

(** The entries into [triggerSmsAlert] and [triggerSOSAlert] among the
    calls made: the alerts dispatched. *)
Definition dispatches (w : World) : list Call :=
  filter (fun c => match c with
                   | EnterSmsAlert _ _ | EnterSOSAlert _ _ => true
                   | _ => false
                   end) (calls w).

(** Location acquisition fails: the promise of [getCurrentLocation] rejects. *)
Definition location_fails (env : Env) : bool :=
  match geolocation env with
  | GeoPosition _ => false
  | _ => true
  end.

(** The location sent with the alert of the threat path. *)
Definition alert_location (env : Env) : Location :=
  match geolocation env with
  | GeoPosition coords => coords
  | _ => fallback_location
  end.

End App.

(** ** The speech-recognition hook (hooks/useVoiceActivation.ts)

    The hook is event driven: the browser delivers recognition events and
    timer callbacks one at a time.  Every handler closes over the values
    [enabled], [permissionStatus] and [triggerPhrase] of the render that
    created it, so each recognition object and each pending timer carries
    the values it captured. *)

Module UseVoiceActivation.
Import TriggerMatcher.

Inductive PermissionStatus := granted | denied | prompt | unsupported.

Definition PermissionStatus_eqb (p q : PermissionStatus) : bool :=
  match p, q with
  | granted, granted | denied, denied | prompt, prompt
  | unsupported, unsupported => true
  | _, _ => false
  end.

(** The values a closure of one render holds. *)
Record Closure := {
  c_enabled : bool;
  c_permissionStatus : PermissionStatus;
  c_triggerPhrase : string
}.

(** The browser's view of one [SpeechRecognition] object: [Inactive] before
    [start()] and after the end event, [Starting] between [start()] and the
    start event, [Running] after it, [Stopping] once [stop()] was called or
    an error occurred and the end event is still to come. *)
Inductive RecStatus := Inactive | Starting | Running | Stopping.

Record Recognition := {
  captured : Closure;
  status : RecStatus
}.

(** A callback registered with [setTimeout]. *)
Record Timer := {
  due : Z;
  timer_closure : Closure
}.

Record Hook := {
  (* props *)
  enabled : bool;
  triggerPhrase : string;
  (* useState cells *)
  isListening : bool;
  transcript : string;
  error : option string;
  permissionStatus : PermissionStatus;
  (* useRef *)
  recognitionRef : option nat;
  (* the browser side *)
  supported : bool;                 (* window.SpeechRecognition exists *)
  recognitions : list Recognition;  (* every object created, by index *)
  timers : list Timer;              (* pending timeouts *)
  (* what the hook did, for observation *)
  activations : nat;                (* calls of onActivate *)
  starts : list (Z * nat)           (* time and object of each start() *)
}.

Definition with_cells (h : Hook) (l : bool) (t : string) (e : option string)
  (p : PermissionStatus) : Hook :=
  {| enabled := enabled h; triggerPhrase := triggerPhrase h;
     isListening := l; transcript := t; error := e; permissionStatus := p;
     recognitionRef := recognitionRef h; supported := supported h;
     recognitions := recognitions h; timers := timers h;
     activations := activations h; starts := starts h |}.

Definition setIsListening (b : bool) (h : Hook) : Hook :=
  with_cells h b (transcript h) (error h) (permissionStatus h).

Definition setTranscript (t : string) (h : Hook) : Hook :=
  with_cells h (isListening h) t (error h) (permissionStatus h).

Definition setError (e : option string) (h : Hook) : Hook :=
  with_cells h (isListening h) (transcript h) e (permissionStatus h).

Definition setPermissionStatus_cell (p : PermissionStatus) (h : Hook) : Hook :=
  with_cells h (isListening h) (transcript h) (error h) p.

Definition set_enabled (b : bool) (h : Hook) : Hook :=
  {| enabled := b; triggerPhrase := triggerPhrase h;
     isListening := isListening h; transcript := transcript h;
     error := error h; permissionStatus := permissionStatus h;
     recognitionRef := recognitionRef h; supported := supported h;
     recognitions := recognitions h; timers := timers h;
     activations := activations h; starts := starts h |}.

Definition with_browser (h : Hook) (ref : option nat) (rs : list Recognition)
  (ts : list Timer) (acts : nat) (sts : list (Z * nat)) : Hook :=
  {| enabled := enabled h; triggerPhrase := triggerPhrase h;
     isListening := isListening h; transcript := transcript h;
     error := error h; permissionStatus := permissionStatus h;
     recognitionRef := ref; supported := supported h;
     recognitions := rs; timers := ts;
     activations := acts; starts := sts |}.

(** The closure of the current render. *)
Definition current_closure (h : Hook) : Closure :=
  {| c_enabled := enabled h;
     c_permissionStatus := permissionStatus h;
     c_triggerPhrase := triggerPhrase h |}.

Definition set_status (s : RecStatus) (r : Recognition) : Recognition :=
  {| captured := captured r; status := s |}.

Fixpoint update_nth {A} (n : nat) (f : A -> A) (l : list A) : list A :=
  match l, n with
  | [], _ => []
  | x :: l', O => f x :: l'
  | x :: l', S n' => x :: update_nth n' f l'
  end.

Fixpoint remove_nth {A} (n : nat) (l : list A) : list A :=
  match l, n with
  | [], _ => []
  | _ :: l', O => l'
  | x :: l', S n' => x :: remove_nth n' l'
  end.

(** [recognition.stop()]: ends a started session, whose end event will
    follow; the browser ignores the call on an object that is not started
    or is already stopping. *)
Definition platform_stop (r : Recognition) : Recognition :=
  match status r with
  | Starting | Running => set_status Stopping r
  | Inactive | Stopping => r
  end.

(** [recognition.start()] on object [rid] at time [now]. *)
Definition platform_start (now : Z) (rid : nat) (h : Hook) : Hook :=
  with_browser h (recognitionRef h)
    (update_nth rid (set_status Starting) (recognitions h))
    (timers h) (activations h) (starts h ++ [(now, rid)]).

Definition stop_recognition (rid : nat) (h : Hook) : Hook :=
  with_browser h (recognitionRef h)
    (update_nth rid platform_stop (recognitions h))
    (timers h) (activations h) (starts h).

(** [startListening] of the render with closure [c].  Creating and starting
    a fresh object succeeds, so the [catch] branch is never entered. *)
Definition startListening (now : Z) (c : Closure) (h : Hook) : Hook :=
  if negb (supported h)
  then setError (Some "Speech recognition is not supported in this browser.") h
  else
    let rid := List.length (recognitions h) in
    let h1 := with_browser h (Some rid)
                (recognitions h ++ [{| captured := c; status := Inactive |}])
                (timers h) (activations h) (starts h) in
    platform_start now rid h1.

Definition stopListening (h : Hook) : Hook :=
  match recognitionRef h with
  | Some rid => setIsListening false (stop_recognition rid h)
  | None => h
  end.

(** The effect on [[enabled, permissionStatus]]: the cleanup of the
    previous run, then the body with the values of the new render. *)
Definition effect_cleanup (h : Hook) : Hook :=
  match recognitionRef h with
  | Some rid => stop_recognition rid h
  | None => h
  end.

Definition effect_body (now : Z) (h : Hook) : Hook :=
  if enabled h && PermissionStatus_eqb (permissionStatus h) granted
  then startListening now (current_closure h) h
  else if negb (enabled h) && isListening h
       then stopListening h
       else h.

(** A render after which the dependencies differ from [old] re-runs the
    effect. *)
Definition rerender (now : Z) (old : Hook) (h : Hook) : Hook :=
  if Bool.eqb (enabled old) (enabled h)
     && PermissionStatus_eqb (permissionStatus old) (permissionStatus h)
  then h
  else effect_body now (effect_cleanup h).

Definition setPermissionStatus (now : Z) (p : PermissionStatus) (h : Hook) : Hook :=
  rerender now h (setPermissionStatus_cell p h).

(** [recognition.onstart] *)
Definition onstart (h : Hook) : Hook :=
  setError None (setIsListening true h).

(** The cooldown of the restart scheduled after an activation. *)
Definition cooldown_ms : Z := 1000.

(** [recognition.onresult] of object [rid] with closure [c]. *)
Definition onresult (now : Z) (rid : nat) (c : Closure)
  (resultIndex : nat) (results : list SpeechResult) (h : Hook) : Hook :=
  let current := currentTranscript resultIndex results in
  let h1 := setTranscript current h in
  if triggerMatches current (c_triggerPhrase c)
  then
    let h2 := stop_recognition rid h1 in
    with_browser h2 (recognitionRef h2) (recognitions h2)
      (timers h2 ++ [{| due := now + cooldown_ms; timer_closure := c |}])
      (S (activations h2)) (starts h2)
  else h1.

(** [recognition.onerror] *)
Definition onerror (now : Z) (code : string) (h : Hook) : Hook :=
  let h1 := setError (Some ("Speech recognition error: " ++ code)%string) h in
  if String.eqb code "not-allowed"
  then setPermissionStatus now denied h1
  else h1.

(** [recognition.onend] of object [rid] with closure [c]. *)
Definition onend (now : Z) (rid : nat) (c : Closure) (h : Hook) : Hook :=
  let h1 := setIsListening false h in
  if c_enabled c && PermissionStatus_eqb (c_permissionStatus c) granted
  then platform_start now rid h1
  else h1.

(** The callback given to [setTimeout] by [onresult]. *)
Definition timer_callback (now : Z) (c : Closure) (h : Hook) : Hook :=
  if c_enabled c then startListening now c h else h.

(** [requestPermission], given how [getUserMedia] settled; the result is
    the boolean the function returns and the hook after it. *)
Definition requestPermission (now : Z) (media : Completion unit) (h : Hook)
  : bool * Hook :=
  match media with
  | Normal _ => (true, setPermissionStatus now granted h)
  | Throw err =>
      (false,
       setPermissionStatus now denied
         (setError (Some ("Microphone permission denied: " ++ err)%string) h))
  end.

(** What can happen to a mounted hook. *)
Inductive Event :=
| PermissionQueried (p : PermissionStatus)    (* the query resolved, or onchange *)
| PermissionQueryFailed
| EnabledChanged (b : bool)                   (* the parent passes a new prop *)
| PermissionRequested (media : Completion unit)
| RecStarted (rid : nat)
| RecResult (rid : nat) (resultIndex : nat) (results : list SpeechResult)
| RecError (rid : nat) (code : string)
| RecEnded (rid : nat)
| TimerFired (k : nat)
| StartListeningCalled
| StopListeningCalled.

(** One event at time [now]; [None] when the browser cannot deliver it in
    this state (no such object, the object is in no state to emit it, the
    timer is not due). *)
Definition step (now : Z) (e : Event) (h : Hook) : option Hook :=
  match e with
  | PermissionQueried p =>
      if supported h then Some (setPermissionStatus now p h) else None
  | PermissionQueryFailed =>
      if supported h then Some (setPermissionStatus now prompt h) else None
  | EnabledChanged b => Some (rerender now h (set_enabled b h))
  | PermissionRequested media => Some (snd (requestPermission now media h))
  | RecStarted rid =>
      match nth_error (recognitions h) rid with
      | Some r =>
          match status r with
          | Starting =>
              Some (onstart (with_browser h (recognitionRef h)
                               (update_nth rid (set_status Running) (recognitions h))
                               (timers h) (activations h) (starts h)))
          | _ => None
          end
      | None => None
      end
  | RecResult rid resultIndex results =>
      match nth_error (recognitions h) rid with
      | Some r =>
          match status r with
          | Running | Stopping =>
              Some (onresult now rid (captured r) resultIndex results h)
          | _ => None
          end
      | None => None
      end
  | RecError rid code =>
      match nth_error (recognitions h) rid with
      | Some r =>
          match status r with
          | Inactive => None
          | _ => Some (onerror now code (stop_recognition rid h))
          end
      | None => None
      end
  | RecEnded rid =>
      match nth_error (recognitions h) rid with
      | Some r =>
          match status r with
          | Inactive => None
          | _ =>
              Some (onend now rid (captured r)
                      (with_browser h (recognitionRef h)
                         (update_nth rid (set_status Inactive) (recognitions h))
                         (timers h) (activations h) (starts h)))
          end
      | None => None
      end
  | TimerFired k =>
      match nth_error (timers h) k with
      | Some t =>
          if (due t <=? now)%Z
          then Some (timer_callback now (timer_closure t)
                       (with_browser h (recognitionRef h) (recognitions h)
                          (remove_nth k (timers h)) (activations h) (starts h)))
          else None
      | None => None
      end
  | StartListeningCalled => Some (startListening now (current_closure h) h)
  | StopListeningCalled => Some (stopListening h)
  end.

(** A run of timed events; the times may not go back. *)
Fixpoint run (clock : Z) (events : list (Z * Event)) (h : Hook) : option Hook :=
  match events with
  | [] => Some h
  | (now, e) :: rest =>
      if (clock <=? now)%Z
      then match step now e h with
           | Some h' => run now rest h'
           | None => None
           end
      else None
  end.

(** The hook after mounting: the first effect reports a missing
    [SpeechRecognition]; the second effect finds nothing to start, the
    permission being [prompt] or [unsupported]. *)
Definition mount (isSupported : bool) (enabledProp : bool) (phrase : string) : Hook :=
  {| enabled := enabledProp; triggerPhrase := phrase;
     isListening := false; transcript := "";
     error := if isSupported then None
              else Some "Speech recognition is not supported in this browser.";
     permissionStatus := if isSupported then prompt else unsupported;
     recognitionRef := None; supported := isSupported;
     recognitions := []; timers := [];
     activations := 0; starts := [] |}.

(** The starts made strictly after time [t0] and before time [t1]. *)
Definition starts_between (t0 t1 : Z) (h : Hook) : list (Z * nat) :=
  filter (fun s => (t0 <? fst s)%Z && (fst s <? t1)%Z) (starts h).

(** The starts made after time [t0]. *)
Definition starts_after (t0 : Z) (h : Hook) : list (Z * nat) :=
  filter (fun s => (t0 <? fst s)%Z) (starts h).

(** Once an object was created the ref points to one, and the hook only
    reports listening after an object was created. *)
Definition Inv (h : Hook) : Prop :=
  (recognitions h <> [] -> recognitionRef h <> None)
  /\ (isListening h = true -> recognitions h <> []).

(** The bookkeeping of a hook is sound: the ref and every recorded start
    designate an existing object, every pending timer comes from an
    activation, nothing was activated or created without an object, and no
    object exists in a browser without speech recognition. *)
Definition WellFormed (h : Hook) : Prop :=
  (forall rid, recognitionRef h = Some rid -> rid < List.length (recognitions h))
  /\ Forall (fun s => snd s < List.length (recognitions h)) (starts h)
  /\ List.length (timers h) <= activations h
  /\ (recognitions h = [] -> activations h = 0)
  /\ (supported h = false -> recognitions h = []).

End UseVoiceActivation.

(** ** Concrete scenarios *)

Module Scenario.
Import UseAuraState UseLocation.

Definition contact1 : EmergencyContact :=
  {| contact_id := "c1"; contact_name := "Asha"; phoneNumber := "+10000000001" |}.

(** A profile with one emergency contact and voice activation on. *)
Definition profile1 : UserProfile :=
  {| id := "user_1"; name := "Riya"; emergencyContacts := [contact1];
     voiceActivationEnabled := true; voiceActivationLanguage := "en-US" |}.

Definition somewhere : Location :=
  {| latitude := (25 # 2)%Q; longitude := (155 # 2)%Q |}.

(** No backend is configured and every provider is unreachable; the
    position is known and playback works. *)
Definition env_offline : Env :=
  {| VITE_SUPABASE_URL := None;
     VITE_SUPABASE_ANON_KEY := None;
     transcription_api := Throw "Failed to fetch";
     chat_api := fun _ _ => Throw "Failed to fetch";
     tts_api := fun _ => Throw "Failed to fetch";
     alert_api := fun _ _ _ => Throw "Failed to fetch";
     geolocation := GeoPosition somewhere;
     audio_playback := Normal tt;
     has_speechSynthesis := true;
     voices := [];
     startRecording_api := Normal tt;
     now_iso := "2025-01-01T00:00:00.000Z" |}.

(** As [env_offline], with the position refused by the user. *)
Definition env_no_location : Env :=
  {| VITE_SUPABASE_URL := None;
     VITE_SUPABASE_ANON_KEY := None;
     transcription_api := Throw "Failed to fetch";
     chat_api := fun _ _ => Throw "Failed to fetch";
     tts_api := fun _ => Throw "Failed to fetch";
     alert_api := fun _ _ _ => Throw "Failed to fetch";
     geolocation := GeoFailure PERMISSION_DENIED;
     audio_playback := Normal tt;
     has_speechSynthesis := true;
     voices := [];
     startRecording_api := Normal tt;
     now_iso := "2025-01-01T00:00:00.000Z" |}.

(** Transcription fails, speech is synthesised, and the audio element then
    reports an error. *)
Definition env_playback_fails : Env :=
  {| VITE_SUPABASE_URL := None;
     VITE_SUPABASE_ANON_KEY := None;
     transcription_api := Throw "Failed to fetch";
     chat_api := fun _ _ => Throw "Failed to fetch";
     tts_api := fun _ => Normal {| ok := true; statusText := "OK";
                                   body := Normal 2048 |};
     alert_api := fun _ _ _ => Throw "Failed to fetch";
     geolocation := GeoPosition somewhere;
     audio_playback := Throw "NotSupportedError";
     has_speechSynthesis := true;
     voices := [];
     startRecording_api := Normal tt;
     now_iso := "2025-01-01T00:00:00.000Z" |}.


(** The microphone cannot be opened. *)
Definition env_no_microphone : Env :=
  {| VITE_SUPABASE_URL := None;
     VITE_SUPABASE_ANON_KEY := None;
     transcription_api := Throw "Failed to fetch";
     chat_api := fun _ _ => Throw "Failed to fetch";
     tts_api := fun _ => Throw "Failed to fetch";
     alert_api := fun _ _ _ => Throw "Failed to fetch";
     geolocation := GeoPosition somewhere;
     audio_playback := Normal tt;
     has_speechSynthesis := true;
     voices := [];
     startRecording_api := Throw "NotAllowedError";
     now_iso := "2025-01-01T00:00:00.000Z" |}.

(** The application on its home view, nothing in progress. *)
Definition world0 : World :=
  {| app_state :=
       {| currentView := home; userProfile := profile1;
          isProcessing := false; sosProcessing := false;
          emergencyVoiceActive := false; aura := UseAuraState.initial;
          loc := UseLocation.initial; audioBlob := false |};
     calls := [] |}.

(** The application while a conversation is recorded: Aura is active and a
    captured audio segment waits to be processed. *)
Definition world_recording : World :=
  {| app_state :=
       {| currentView := home; userProfile := profile1;
          isProcessing := false; sosProcessing := false;
          emergencyVoiceActive := false;
          aura := activateAura UseAuraState.initial;
          loc := UseLocation.initial; audioBlob := true |};
     calls := [] |}.

(** The hook of the application: supported browser, voice activation on,
    trigger phrase "Help Aura". *)
Definition hook0 : UseVoiceActivation.Hook :=
  UseVoiceActivation.mount true true "Help Aura".

(** The user says the trigger phrase: the permission is granted at time 0,
    the session starts, and at 1500 ms the final transcript "help aura"
    arrives. *)
Definition trace_trigger : list (Z * UseVoiceActivation.Event) :=
  [ (0%Z, UseVoiceActivation.PermissionQueried UseVoiceActivation.granted);
    (10%Z, UseVoiceActivation.RecStarted 0);
    (1500%Z, UseVoiceActivation.RecResult 0 0
               [{| TriggerMatcher.sr_transcript := "help aura";
                   TriggerMatcher.sr_isFinal := true |}]) ].

(** The browser ends the stopped session 20 ms after [stop()]. *)
Definition trace_end : list (Z * UseVoiceActivation.Event) :=
  [ (1520%Z, UseVoiceActivation.RecEnded 0) ].

(** The restarted session reports its start, and the cooldown timer fires
    1000 ms after the detection. *)
Definition trace_cooldown : list (Z * UseVoiceActivation.Event) :=
  [ (1530%Z, UseVoiceActivation.RecStarted 0);
    (2500%Z, UseVoiceActivation.TimerFired 0) ].

(** The user switches voice activation off while the session is running. *)
Definition trace_disable : list (Z * UseVoiceActivation.Event) :=
  [ (0%Z, UseVoiceActivation.PermissionQueried UseVoiceActivation.granted);
    (10%Z, UseVoiceActivation.RecStarted 0);
    (5000%Z, UseVoiceActivation.EnabledChanged false) ].

(** The hook after [trace_disable]. *)
Definition hook_disabled : UseVoiceActivation.Hook :=
  match UseVoiceActivation.run 0 trace_disable hook0 with
  | Some h => h
  | None => hook0
  end.

(** The hook after the detection of [trace_trigger], then switched off
    during the cooldown. *)
Definition hook_disabled_in_cooldown : UseVoiceActivation.Hook :=
  match UseVoiceActivation.run 0
          (trace_trigger ++ [(1600%Z, UseVoiceActivation.EnabledChanged false)])
          hook0 with
  | Some h => h
  | None => hook0
  end.

(** The hook after the detection, the end event and the cooldown timer. *)
Definition hook_after_cooldown : UseVoiceActivation.Hook :=
  match UseVoiceActivation.run 0 (trace_trigger ++ trace_end ++ trace_cooldown)
          hook0 with
  | Some h => h
  | None => hook0
  end.

(** A browser without speech recognition in which the user grants the
    microphone and the application asks to listen. *)
Definition trace_unsupported : list (Z * UseVoiceActivation.Event) :=
  [ (0%Z, UseVoiceActivation.PermissionRequested (Normal tt));
    (5%Z, UseVoiceActivation.StartListeningCalled) ].

Definition hook_unsupported : UseVoiceActivation.Hook :=
  match UseVoiceActivation.run 0 trace_unsupported
          (UseVoiceActivation.mount false true "Help Aura") with
  | Some h => h
  | None => hook0
  end.


End Scenario.

(* ================================================================== *)
(** * Verification *)
(* ================================================================== *)

(** ** The dynamic programme computes the edit distance *)

Module LevenshteinFacts.
Import EditScript.

Section Generic.
Context {A : Type} (eqbA : A -> A -> bool).
Hypothesis eqbA_spec : forall x y, eqbA x y = true <-> x = y.

Local Abbreviation lev := (lev_rec eqbA).
Local Abbreviation script := (list (op A)).

Lemma lev_nil_l (b : list A) : lev [] b = List.length b.
Proof. destruct b; reflexivity. Qed.

Lemma lev_nil_r (a : list A) : lev a [] = List.length a.
Proof. destruct a; reflexivity. Qed.

Lemma lev_cons (x y : A) (a b : list A) :
      lev (x :: a) (y :: b)
      = min3 (lev a (y :: b) + 1) (lev (x :: a) b + 1) (lev a b + cost eqbA x y).
Proof. reflexivity. Qed.

Lemma cost_same (x : A) : cost eqbA x x = 0.
Proof.
      unfold cost. destruct (eqbA x x) eqn:E; [reflexivity|].
      assert (eqbA x x = true) by (apply eqbA_spec; reflexivity). congruence.
Qed.

Lemma cost_le_1 (x y : A) : cost eqbA x y <= 1.
Proof. unfold cost. destruct (eqbA x y); lia. Qed.

Lemma script_cost_cons (o : op A) (s : script) :
      script_cost (o :: s) = op_cost o + script_cost s.
Proof. reflexivity. Qed.

(** Some script reaches the recurrence's value. *)
Lemma lev_rec_attained (a b : list A) :
      exists s : script, apply_script s a = Some b /\ script_cost s = lev a b.
Proof.
      revert b. induction a as [|x a IHa]; intro b.
      - rewrite lev_nil_l. induction b as [|y b IHb].
        + exists []. split; reflexivity.
        + destruct IHb as (s & Hs & Hc). exists (Ins y :: s).
          rewrite script_cost_cons, Hc. cbn [apply_script]. rewrite Hs.
          split; reflexivity.
      - induction b as [|y b IHb].
        + destruct (IHa []) as (s & Hs & Hc). exists (Del :: s).
          rewrite script_cost_cons, Hc, !lev_nil_r. split; [exact Hs | reflexivity].
        + rewrite lev_cons. unfold min3.
          destruct (IHa (y :: b)) as (s1 & Hs1 & Hc1).
          destruct IHb as (s2 & Hs2 & Hc2).
          destruct (IHa b) as (s3 & Hs3 & Hc3).
          destruct (Nat.min_dec (lev a (y :: b) + 1)
                      (Nat.min (lev (x :: a) b + 1) (lev a b + cost eqbA x y)))
            as [E|E]; rewrite E.
          * exists (Del :: s1). rewrite script_cost_cons, Hc1.
            split; [exact Hs1 | cbn [op_cost]; lia].
          * destruct (Nat.min_dec (lev (x :: a) b + 1) (lev a b + cost eqbA x y))
              as [E'|E']; rewrite E'.
            -- exists (Ins y :: s2). rewrite script_cost_cons, Hc2.
               cbn [apply_script]. rewrite Hs2.
               split; [reflexivity | cbn [op_cost]; lia].
            -- unfold cost. destruct (eqbA x y) eqn:Exy.
               ++ apply eqbA_spec in Exy. subst y.
                  exists (Keep :: s3). rewrite script_cost_cons, Hc3.
                  cbn [apply_script]. rewrite Hs3.
                  split; [reflexivity | cbn [op_cost]; lia].
               ++ exists (Subst y :: s3). rewrite script_cost_cons, Hc3.
                  cbn [apply_script]. rewrite Hs3.
                  split; [reflexivity | cbn [op_cost]; lia].
Qed.

(** No script is cheaper than the recurrence's value. *)
Lemma lev_rec_lower_bound (s : script) :
      forall a b, apply_script s a = Some b -> lev a b <= script_cost s.
Proof.
      induction s as [|o s IHs]; intros a b H.
      - destruct a; cbn [apply_script] in H; [|discriminate].
        injection H as <-. cbn. lia.
      - rewrite script_cost_cons. destruct o; cbn [apply_script op_cost] in H |- *.
        + (* Keep *)
          destruct a as [|x a]; [discriminate|].
          destruct (apply_script s a) as [b'|] eqn:E; [|discriminate].
          injection H as <-. specialize (IHs _ _ E).
          rewrite lev_cons, cost_same. unfold min3. lia.
        + (* Subst *)
          destruct a as [|x a]; [discriminate|].
          destruct (apply_script s a) as [b'|] eqn:E; [|discriminate].
          injection H as <-. specialize (IHs _ _ E).
          rewrite lev_cons. unfold min3. pose proof (cost_le_1 x y). lia.
        + (* Ins *)
          assert (exists b', apply_script s a = Some b' /\ b = y :: b')
            as (b' & E & ->).
          { destruct a; cbn [apply_script] in H;
              (destruct (apply_script s _) as [b'|]; [|discriminate]);
              injection H as <-; eexists; split; reflexivity. }
          specialize (IHs _ _ E).
          destruct a as [|x a].
          * rewrite lev_nil_l in *. cbn [List.length]. lia.
          * rewrite lev_cons. unfold min3. lia.
        + (* Del *)
          destruct a as [|x a]; [discriminate|].
          specialize (IHs _ _ H).
          destruct b as [|y b].
          * rewrite lev_nil_r in *. cbn [List.length]. lia.
          * rewrite lev_cons. unfold min3. lia.
Qed.

(** *** Scripts compose and reverse *)

Lemma script_cost_app (s1 s2 : script) :
      script_cost (s1 ++ s2) = script_cost s1 + script_cost s2.
Proof.
      induction s1 as [|o s1 IH]; [reflexivity|].
      rewrite <- app_comm_cons, !script_cost_cons, IH. lia.
Qed.

Lemma apply_script_app (s1 s2 : script) :
      forall a1 a2 b1 b2,
        apply_script s1 a1 = Some b1 ->
        apply_script s2 a2 = Some b2 ->
        apply_script (s1 ++ s2) (a1 ++ a2) = Some (b1 ++ b2).
Proof.
      induction s1 as [|o s1 IH]; intros a1 a2 b1 b2 H1 H2.
      - destruct a1; cbn [apply_script] in H1; [|discriminate].
        injection H1 as <-. exact H2.
      - rewrite <- app_comm_cons.
        destruct o; cbn [apply_script] in H1.
        + destruct a1 as [|x a1]; [discriminate|].
          destruct (apply_script s1 a1) as [b'|] eqn:E; [|discriminate].
          injection H1 as <-. cbn [apply_script app].
          rewrite (IH _ _ _ _ E H2). reflexivity.
        + destruct a1 as [|x a1]; [discriminate|].
          destruct (apply_script s1 a1) as [b'|] eqn:E; [|discriminate].
          injection H1 as <-. cbn [apply_script app].
          rewrite (IH _ _ _ _ E H2). reflexivity.
        + assert (exists b', apply_script s1 a1 = Some b' /\ b1 = y :: b')
            as (b' & E & ->).
          { destruct a1; cbn [apply_script] in H1;
              (destruct (apply_script s1 _) as [b'|]; [|discriminate]);
              injection H1 as <-; eexists; split; reflexivity. }
          assert (apply_script (Ins y :: s1 ++ s2) (a1 ++ a2)
                  = option_map (cons y) (apply_script (s1 ++ s2) (a1 ++ a2)))
            as -> by (destruct (a1 ++ a2); reflexivity).
          rewrite (IH _ _ _ _ E H2). reflexivity.
        + destruct a1 as [|x a1]; [discriminate|].
          cbn [apply_script app]. exact (IH _ _ _ _ H1 H2).
Qed.

Lemma apply_script_rev (s : script) :
      forall a b,
        apply_script s a = Some b ->
        exists s', apply_script s' (rev a) = Some (rev b)
                   /\ script_cost s' = script_cost s.
Proof.
      induction s as [|o s IH]; intros a b H.
      - destruct a; cbn [apply_script] in H; [|discriminate].
        injection H as <-. exists []. split; reflexivity.
      - destruct o; cbn [apply_script] in H.
        + destruct a as [|x a]; [discriminate|].
          destruct (apply_script s a) as [b'|] eqn:E; [|discriminate].
          injection H as <-. destruct (IH _ _ E) as (s' & Hs' & Hc).
          exists (s' ++ [Keep]). split.
          * cbn [rev]. apply apply_script_app; [exact Hs' | reflexivity].
          * rewrite script_cost_app, !script_cost_cons, Hc.
            change (script_cost (@nil (op A))) with 0. cbn [op_cost]. lia.
        + destruct a as [|x a]; [discriminate|].
          destruct (apply_script s a) as [b'|] eqn:E; [|discriminate].
          injection H as <-. destruct (IH _ _ E) as (s' & Hs' & Hc).
          exists (s' ++ [Subst y]). split.
          * cbn [rev]. apply apply_script_app; [exact Hs' | reflexivity].
          * rewrite script_cost_app, !script_cost_cons, Hc.
            change (script_cost (@nil (op A))) with 0. cbn [op_cost]. lia.
        + assert (exists b', apply_script s a = Some b' /\ b = y :: b')
            as (b' & E & ->).
          { destruct a; cbn [apply_script] in H;
              (destruct (apply_script s _) as [b'|]; [|discriminate]);
              injection H as <-; eexists; split; reflexivity. }
          destruct (IH _ _ E) as (s' & Hs' & Hc).
          exists (s' ++ [Ins y]). split.
          * cbn [rev]. rewrite <- (app_nil_r (rev a)).
            apply apply_script_app; [exact Hs' | reflexivity].
          * rewrite script_cost_app, !script_cost_cons, Hc.
            change (script_cost (@nil (op A))) with 0. cbn [op_cost]. lia.
        + destruct a as [|x a]; [discriminate|].
          destruct (IH _ _ H) as (s' & Hs' & Hc).
          exists (s' ++ [Del]). split.
          * cbn [rev]. rewrite <- (app_nil_r (rev b)).
            apply apply_script_app; [exact Hs' | reflexivity].
          * rewrite script_cost_app, !script_cost_cons, Hc.
            change (script_cost (@nil (op A))) with 0. cbn [op_cost]. lia.
Qed.

Lemma lev_rev_le (a b : list A) : lev (rev a) (rev b) <= lev a b.
Proof.
      destruct (lev_rec_attained a b) as (s & Hs & Hc).
      destruct (apply_script_rev _ _ _ Hs) as (s' & Hs' & Hc').
      apply lev_rec_lower_bound in Hs'. lia.
Qed.

Lemma lev_rev (a b : list A) : lev (rev a) (rev b) = lev a b.
Proof.
      apply Nat.le_antisymm; [apply lev_rev_le|].
      rewrite <- (rev_involutive a), <- (rev_involutive b) at 1.
      apply lev_rev_le.
Qed.

(** *** The rows of the matrix *)

Lemma row_spec_unfold (ra a rb : list A) :
      row_spec eqbA ra a rb
      = lev ra rb :: match a with
                     | [] => []
                     | x :: a' => row_spec eqbA (x :: ra) a' rb
                     end.
Proof. destruct a; reflexivity. Qed.

Lemma first_row_spec (a ra : list A) :
      row_spec eqbA ra a [] = seq (List.length ra) (S (List.length a)).
Proof.
      revert ra. induction a as [|x a IH]; intro ra.
      - cbn [row_spec]. rewrite lev_nil_r. reflexivity.
      - rewrite row_spec_unfold, lev_nil_r, IH. reflexivity.
Qed.

Lemma fill_row_spec (bi : A) (a : list A) :
      forall ra rb,
        fill_row eqbA bi a (row_spec eqbA ra a rb) (lev ra (bi :: rb))
        = tl (row_spec eqbA ra a (bi :: rb)).
Proof.
      induction a as [|x a IH]; intros ra rb.
      - reflexivity.
      - rewrite (row_spec_unfold ra (x :: a) rb).
        rewrite (row_spec_unfold (x :: ra) a rb).
        cbn [fill_row].
        rewrite <- (row_spec_unfold (x :: ra) a rb).
        assert (min3 (lev (x :: ra) rb + 1) (lev ra (bi :: rb) + 1)
                  (lev ra rb + cost eqbA x bi)
                = lev (x :: ra) (bi :: rb)) as ->.
        { rewrite lev_cons. unfold min3. lia. }
        rewrite IH.
        rewrite (row_spec_unfold ra (x :: a) (bi :: rb)). cbn [tl].
        rewrite (row_spec_unfold (x :: ra) a (bi :: rb)). reflexivity.
Qed.

Lemma next_row_spec (a rb : list A) (bi : A) :
      next_row eqbA a (row_spec eqbA [] a rb) (S (List.length rb)) bi
      = row_spec eqbA [] a (bi :: rb).
Proof.
      unfold next_row.
      replace (S (List.length rb)) with (lev [] (bi :: rb))
        by (rewrite lev_nil_l; reflexivity).
      rewrite fill_row_spec, (row_spec_unfold [] a (bi :: rb)). reflexivity.
Qed.

Lemma fill_spec (a b : list A) :
      forall rb rows,
        hd [] rows = row_spec eqbA [] a rb ->
        hd [] (fill eqbA a b (S (List.length rb)) rows)
          = row_spec eqbA [] a (rev b ++ rb)
        /\ List.length (fill eqbA a b (S (List.length rb)) rows)
           = List.length b + List.length rows.
Proof.
      induction b as [|bi b IH]; intros rb rows H.
      - split; [exact H | reflexivity].
      - cbn [fill]. rewrite H, next_row_spec.
        destruct (IH (bi :: rb) (row_spec eqbA [] a (bi :: rb) :: rows) eq_refl)
          as [Hh Hl].
        cbn [List.length] in Hh, Hl. rewrite Hh, Hl. split.
        + cbn [rev]. rewrite <- app_assoc. reflexivity.
        + cbn [List.length]. lia.
Qed.

Lemma last_row_spec (a b : list A) :
      nth (List.length b) (matrix eqbA a b) [] = row_spec eqbA [] a (rev b).
Proof.
      unfold matrix.
      destruct (fill_spec a b [] [first_row a]) as [Hh Hl].
      { cbn [hd]. unfold first_row. rewrite first_row_spec. reflexivity. }
      cbn [List.length] in Hh, Hl. rewrite app_nil_r in Hh.
      rewrite rev_nth by lia. rewrite Hl.
      replace (List.length b + 1 - S (List.length b)) with 0 by lia.
      rewrite <- Hh. destruct (fill eqbA a b 1 [first_row a]); reflexivity.
Qed.

Lemma row_spec_last (a : list A) :
      forall ra rb,
        nth (List.length a) (row_spec eqbA ra a rb) 0 = lev (rev a ++ ra) rb.
Proof.
      induction a as [|x a IH]; intros ra rb.
      - reflexivity.
      - rewrite row_spec_unfold. cbn [List.length nth rev].
        rewrite IH, <- app_assoc. reflexivity.
Qed.

(** The matrix cell returned by the code is the recurrence's value. *)
Lemma distance_lev_rec (a b : list A) : distance eqbA a b = lev a b.
Proof.
      destruct a as [|x a]; [symmetry; apply lev_nil_l|].
      destruct b as [|y b]; [symmetry; apply lev_nil_r|].
      unfold distance. rewrite last_row_spec, row_spec_last, app_nil_r.
      apply lev_rev.
Qed.

Theorem distance_attained (a b : list A) :
      exists s : script,
        apply_script s a = Some b /\ script_cost s = distance eqbA a b.
Proof. rewrite distance_lev_rec. apply lev_rec_attained. Qed.

Theorem distance_lower_bound (s : script) (a b : list A) :
      apply_script s a = Some b -> distance eqbA a b <= script_cost s.
Proof. rewrite distance_lev_rec. apply lev_rec_lower_bound. Qed.

(** *** Metric properties of the recurrence *)

Lemma cost_sym (x y : A) : cost eqbA x y = cost eqbA y x.
Proof.
  unfold cost. destruct (eqbA x y) eqn:E1, (eqbA y x) eqn:E2; try reflexivity.
  - apply eqbA_spec in E1. subst y. rewrite (proj2 (eqbA_spec x x) eq_refl) in E2.
    discriminate.
  - apply eqbA_spec in E2. subst y. rewrite (proj2 (eqbA_spec x x) eq_refl) in E1.
    discriminate.
Qed.

Lemma cost_zero_eq (x y : A) : cost eqbA x y = 0 -> x = y.
Proof.
  unfold cost. destruct (eqbA x y) eqn:E; [|discriminate].
  intros _. apply eqbA_spec. exact E.
Qed.

Lemma lev_sym (a : list A) : forall b, lev a b = lev b a.
Proof.
  induction a as [|x a IHa]; intro b.
  - rewrite lev_nil_l, lev_nil_r. reflexivity.
  - induction b as [|y b IHb].
    + rewrite lev_nil_l, lev_nil_r. reflexivity.
    + rewrite !lev_cons, IHb, (IHa (y :: b)), (IHa b), (cost_sym x y).
      unfold min3. lia.
Qed.

Lemma lev_refl (a : list A) : lev a a = 0.
Proof.
  induction a as [|x a IH]; [reflexivity|].
  rewrite lev_cons, IH, cost_same. unfold min3. lia.
Qed.

Lemma lev_zero_eq (a : list A) : forall b, lev a b = 0 -> a = b.
Proof.
  induction a as [|x a IHa]; intros [|y b] H.
  - reflexivity.
  - rewrite lev_nil_l in H. discriminate.
  - rewrite lev_nil_r in H. discriminate.
  - rewrite lev_cons in H. unfold min3 in H.
    assert (lev a b = 0 /\ cost eqbA x y = 0) as [H1 H2] by lia.
    rewrite (IHa b H1), (cost_zero_eq x y H2). reflexivity.
Qed.

Lemma lev_upper (a : list A) :
  forall b, lev a b <= Nat.max (List.length a) (List.length b).
Proof.
  induction a as [|x a IHa]; intros [|y b].
  - cbn. lia.
  - rewrite lev_nil_l. lia.
  - rewrite lev_nil_r. lia.
  - rewrite lev_cons. unfold min3. pose proof (IHa b). pose proof (cost_le_1 x y).
    cbn [List.length]. lia.
Qed.

Lemma lev_lower (a : list A) :
  forall b,
    List.length a - List.length b <= lev a b
    /\ List.length b - List.length a <= lev a b.
Proof.
  induction a as [|x a IHa]; intro b.
  - rewrite lev_nil_l. cbn. lia.
  - induction b as [|y b IHb].
    + rewrite lev_nil_r. cbn. lia.
    + rewrite lev_cons. unfold min3.
      pose proof (IHa (y :: b)). pose proof (IHa b).
      cbn [List.length] in *. lia.
Qed.

(** *** Scripts compose: the triangle inequality *)

Lemma apply_Keep (s : script) (a b : list A) :
  apply_script (Keep :: s) a = Some b
  <-> exists x a' b', a = x :: a' /\ b = x :: b' /\ apply_script s a' = Some b'.
Proof.
  cbn [apply_script]. split.
  - destruct a as [|x a']; [discriminate|].
    destruct (apply_script s a') as [b'|] eqn:E; [|discriminate].
    intro H. injection H as <-. exists x, a', b'. auto.
  - intros (x & a' & b' & -> & -> & H). rewrite H. reflexivity.
Qed.

Lemma apply_Subst (y : A) (s : script) (a b : list A) :
  apply_script (Subst y :: s) a = Some b
  <-> exists x a' b', a = x :: a' /\ b = y :: b' /\ apply_script s a' = Some b'.
Proof.
  cbn [apply_script]. split.
  - destruct a as [|x a']; [discriminate|].
    destruct (apply_script s a') as [b'|] eqn:E; [|discriminate].
    intro H. injection H as <-. exists x, a', b'. auto.
  - intros (x & a' & b' & -> & -> & H). rewrite H. reflexivity.
Qed.

Lemma apply_Ins (y : A) (s : script) (a b : list A) :
  apply_script (Ins y :: s) a = Some b
  <-> exists b', b = y :: b' /\ apply_script s a = Some b'.
Proof.
  split.
  - intro H. destruct a; cbn [apply_script] in H;
      (destruct (apply_script s _) as [b'|]; [|discriminate]);
      injection H as <-; eauto.
  - intros (b' & -> & H). destruct a; cbn [apply_script]; rewrite H; reflexivity.
Qed.

Lemma apply_Del (s : script) (a b : list A) :
  apply_script (Del :: s) a = Some b
  <-> exists x a', a = x :: a' /\ apply_script s a' = Some b.
Proof.
  cbn [apply_script]. split.
  - destruct a as [|x a']; [discriminate|]. eauto.
  - intros (x & a' & -> & H). exact H.
Qed.

Lemma apply_nil (a b : list A) :
  apply_script [] a = Some b <-> a = [] /\ b = [].
Proof.
  split.
  - destruct a; cbn; [|discriminate]. intro H. injection H as <-. auto.
  - intros [-> ->]. reflexivity.
Qed.

Lemma script_compose (n : nat) :
  forall (s1 s2 : script) (a b c : list A),
    List.length s1 + List.length s2 <= n ->
    apply_script s1 a = Some b ->
    apply_script s2 b = Some c ->
    exists s, apply_script s a = Some c
              /\ script_cost s <= script_cost s1 + script_cost s2.
Proof.
  induction n as [|n IH]; intros s1 s2 a b c Hn H1 H2.
  - destruct s1; [|cbn in Hn; lia]. destruct s2; [|cbn in Hn; lia].
    apply apply_nil in H1 as [-> ->]. exists []. split; [exact H2 | cbn; lia].
  - destruct s1 as [|o1 s1].
    + apply apply_nil in H1 as [-> ->]. exists s2. split; [exact H2 | cbn; lia].
    + destruct o1.
      * (* Keep *)
        apply apply_Keep in H1 as (x & a' & b' & -> & -> & H1).
        destruct s2 as [|o2 s2]; [apply apply_nil in H2 as [? _]; discriminate|].
        destruct o2.
        -- apply apply_Keep in H2 as (x2 & b2 & c' & E & -> & H2).
           injection E as <- <-.
           destruct (IH s1 s2 a' b' c') as (s & Hs & Hc); auto;
             [cbn in Hn; lia|].
           exists (Keep :: s). split.
           ++ apply apply_Keep. eauto 10.
           ++ rewrite !script_cost_cons. cbn [op_cost]. lia.
        -- apply apply_Subst in H2 as (x2 & b2 & c' & E & -> & H2).
           injection E as <- <-.
           destruct (IH s1 s2 a' b' c') as (s & Hs & Hc); auto;
             [cbn in Hn; lia|].
           exists (Subst y :: s). split.
           ++ apply apply_Subst. eauto 10.
           ++ rewrite !script_cost_cons. cbn [op_cost]. lia.
        -- apply apply_Ins in H2 as (c' & -> & H2).
           destruct (IH (Keep :: s1) s2 (x :: a') (x :: b') c') as (s & Hs & Hc);
             auto; [cbn in Hn |- *; lia | apply apply_Keep; eauto 10 |].
           exists (Ins y :: s). split.
           ++ apply apply_Ins. eauto.
           ++ rewrite !script_cost_cons in *. cbn [op_cost] in *. lia.
        -- apply apply_Del in H2 as (x2 & b2 & E & H2). injection E as <- <-.
           destruct (IH s1 s2 a' b' c) as (s & Hs & Hc); auto;
             [cbn in Hn; lia|].
           exists (Del :: s). split.
           ++ apply apply_Del. eauto.
           ++ rewrite !script_cost_cons. cbn [op_cost]. lia.
      * (* Subst *)
        apply apply_Subst in H1 as (x & a' & b' & -> & -> & H1).
        destruct s2 as [|o2 s2]; [apply apply_nil in H2 as [? _]; discriminate|].
        destruct o2.
        -- apply apply_Keep in H2 as (x2 & b2 & c' & E & -> & H2).
           injection E as <- <-.
           destruct (IH s1 s2 a' b' c') as (s & Hs & Hc); auto;
             [cbn in Hn; lia|].
           exists (Subst y :: s). split.
           ++ apply apply_Subst. eauto 10.
           ++ rewrite !script_cost_cons. cbn [op_cost]. lia.
        -- apply apply_Subst in H2 as (x2 & b2 & c' & E & -> & H2).
           injection E as <- <-.
           destruct (IH s1 s2 a' b' c') as (s & Hs & Hc); auto;
             [cbn in Hn; lia|].
           exists (Subst y0 :: s). split.
           ++ apply apply_Subst. eauto 10.
           ++ rewrite !script_cost_cons. cbn [op_cost]. lia.
        -- apply apply_Ins in H2 as (c' & -> & H2).
           destruct (IH (Subst y :: s1) s2 (x :: a') (y :: b') c')
             as (s & Hs & Hc); auto;
             [cbn in Hn |- *; lia | apply apply_Subst; eauto 10 |].
           exists (Ins y0 :: s). split.
           ++ apply apply_Ins. eauto.
           ++ rewrite !script_cost_cons in *. cbn [op_cost] in *. lia.
        -- apply apply_Del in H2 as (x2 & b2 & E & H2). injection E as <- <-.
           destruct (IH s1 s2 a' b' c) as (s & Hs & Hc); auto;
             [cbn in Hn; lia|].
           exists (Del :: s). split.
           ++ apply apply_Del. eauto.
           ++ rewrite !script_cost_cons. cbn [op_cost]. lia.
      * (* Ins *)
        apply apply_Ins in H1 as (b' & -> & H1).
        destruct s2 as [|o2 s2]; [apply apply_nil in H2 as [? _]; discriminate|].
        destruct o2.
        -- apply apply_Keep in H2 as (x2 & b2 & c' & E & -> & H2).
           injection E as <- <-.
           destruct (IH s1 s2 a b' c') as (s & Hs & Hc); auto;
             [cbn in Hn; lia|].
           exists (Ins y :: s). split.
           ++ apply apply_Ins. eauto.
           ++ rewrite !script_cost_cons. cbn [op_cost]. lia.
        -- apply apply_Subst in H2 as (x2 & b2 & c' & E & -> & H2).
           injection E as <- <-.
           destruct (IH s1 s2 a b' c') as (s & Hs & Hc); auto;
             [cbn in Hn; lia|].
           exists (Ins y0 :: s). split.
           ++ apply apply_Ins. eauto.
           ++ rewrite !script_cost_cons. cbn [op_cost]. lia.
        -- apply apply_Ins in H2 as (c' & -> & H2).
           destruct (IH (Ins y :: s1) s2 a (y :: b') c') as (s & Hs & Hc);
             auto; [cbn in Hn |- *; lia | apply apply_Ins; eauto |].
           exists (Ins y0 :: s). split.
           ++ apply apply_Ins. eauto.
           ++ rewrite !script_cost_cons in *. cbn [op_cost] in *. lia.
        -- apply apply_Del in H2 as (x2 & b2 & E & H2). injection E as <- <-.
           destruct (IH s1 s2 a b' c) as (s & Hs & Hc); auto;
             [cbn in Hn; lia|].
           exists s. split; [exact Hs|].
           rewrite !script_cost_cons. cbn [op_cost]. lia.
      * (* Del *)
        apply apply_Del in H1 as (x & a' & -> & H1).
        destruct (IH s1 s2 a' b c) as (s & Hs & Hc); auto; [cbn in Hn; lia|].
        exists (Del :: s). split.
        -- apply apply_Del. eauto.
        -- rewrite !script_cost_cons. cbn [op_cost]. lia.
Qed.

Lemma lev_triangle (a b c : list A) : lev a c <= lev a b + lev b c.
Proof.
  destruct (lev_rec_attained a b) as (s1 & H1 & C1).
  destruct (lev_rec_attained b c) as (s2 & H2 & C2).
  destruct (script_compose _ s1 s2 a b c (Nat.le_refl _) H1 H2) as (s & Hs & Hc).
  apply lev_rec_lower_bound in Hs. lia.
Qed.

End Generic.
End LevenshteinFacts.


(** ** Claim C7 *)

Module LevenshteinClaims.
Import EditScript LevenshteinFacts.

Lemma ascii_eqb_iff (x y : ascii) : Ascii.eqb x y = true <-> x = y.
Proof. apply Ascii.eqb_eq. Qed.

(** C7: [levenshteinDistance a b] is the unit-cost edit distance of [a] and
    [b]: some script of insertions, deletions and substitutions (each of
    cost 1) turns [a] into [b] at that cost, no script does it for less, and
    [levenshteinDistance "kitten" "sitting" = 3]. *)
Theorem C7_levenshteinDistance_is_edit_distance :
  forall a b : string,
    (exists s : list (op ascii),
        apply_script s (list_ascii_of_string a) = Some (list_ascii_of_string b)
        /\ script_cost s = levenshteinDistance a b)
    /\ (forall s : list (op ascii),
          apply_script s (list_ascii_of_string a) = Some (list_ascii_of_string b) ->
          levenshteinDistance a b <= script_cost s)
    /\ levenshteinDistance "kitten" "sitting" = 3.
Proof.
  intros a b. unfold levenshteinDistance. repeat split.
  - apply distance_attained. exact ascii_eqb_iff.
  - intros s Hs. apply distance_lower_bound; [exact ascii_eqb_iff | exact Hs].
Qed.

End LevenshteinClaims.

(** ** Substring search *)

Module JsStringFacts.

Lemma startsWith_iff (s p : string) :
  startsWith s p = true <-> exists r, s = (p ++ r)%string.
Proof.
  revert s. induction p as [|cp p IH]; intro s.
  - split; [intros _; exists s; reflexivity | intros _; destruct s; reflexivity].
  - destruct s as [|cs s]; cbn [startsWith].
    + split; [discriminate | intros [r H]; discriminate].
    + rewrite andb_true_iff, Ascii.eqb_eq, IH. split.
      * intros [-> [r ->]]. exists r. reflexivity.
      * intros [r H]. cbn in H. injection H as -> ->. split; [reflexivity | eauto].
Qed.

Lemma includes_unfold (s p : string) :
  includes s p
  = startsWith s p || match s with
                      | EmptyString => false
                      | String _ s' => includes s' p
                      end.
Proof. destruct s; reflexivity. Qed.

(** [s.includes(p)] holds exactly when [p] occurs in [s]. *)
Lemma includes_iff (s p : string) :
  includes s p = true <-> exists l r, s = (l ++ p ++ r)%string.
Proof.
  induction s as [|c s IH]; rewrite includes_unfold, orb_true_iff.
  - split.
    + intros [H|H]; [|discriminate].
      apply startsWith_iff in H as [r H]. exists ""%string, r. exact H.
    + intros (l & r & H). left. apply startsWith_iff.
      destruct l; [exists r; exact H | discriminate].
  - split.
    + intros [H|H].
      * apply startsWith_iff in H as [r H]. exists ""%string, r. exact H.
      * apply IH in H as (l & r & ->). exists (String c l), r. reflexivity.
    + intros (l & r & H). destruct l as [|c' l].
      * left. apply startsWith_iff. exists r. exact H.
      * right. apply IH. cbn in H. injection H as _ ->. eauto.
Qed.

Lemma includes_empty (s : string) : includes s "" = true.
Proof. rewrite includes_unfold. destruct s; reflexivity. Qed.

Lemma split_space_nonempty (s : string) : split_space s <> [].
Proof.
  induction s as [|c s IH]; cbn [split_space]; [discriminate|].
  destruct (Ascii.eqb c " "); [discriminate|].
  destruct (split_space s); [contradiction | discriminate].
Qed.

End JsStringFacts.

(** ** Claim C8: threat detection *)

Module ThreatClaims.
Import ApiService JsStringFacts.

(** C8: [detectThreat] is true exactly when the lowercased transcript
    contains one of the threat keywords as a substring; it is true on
    "please stop following me" and false on "what a nice day". *)
Theorem C8_detectThreat_is_keyword_containment :
  (forall transcribedText : string,
      detectThreat transcribedText = true
      <-> exists keyword,
            In keyword threatKeywords
            /\ exists l r, toLowerCase transcribedText = (l ++ keyword ++ r)%string)
  /\ detectThreat "please stop following me" = true
  /\ detectThreat "what a nice day" = false.
Proof.
  split; [|split; reflexivity].
  intro t. unfold detectThreat. rewrite existsb_exists.
  split; intros (k & Hin & H); exists k; (split; [exact Hin|]);
    apply includes_iff; exact H.
Qed.

End ThreatClaims.

(** ** Claim C1: the grouping of the fourth condition *)

Module MatcherClaims.
Import TriggerMatcher MatcherSpec JsStringFacts.

Lemma existsb_or_const {A} (f : A -> bool) (a b : bool) (l : list A) :
  l <> [] ->
  existsb (fun w => (f w && a) || b) l = (existsb f l && a) || b.
Proof.
  induction l as [|x l IH]; [contradiction|]. intros _.
  cbn [existsb]. destruct l as [|y l].
  - cbn. destruct (f x), a, b; reflexivity.
  - rewrite IH by discriminate.
    destruct (f x), a, b, (existsb f (y :: l)); reflexivity.
Qed.

(** What the condition of [onresult] computes: the clause on 'aurora' is
    not under the conjunction with the word close to 'help'. *)
Lemma triggerMatches_unfolded (transcript triggerPhrase : string) :
  triggerMatches transcript triggerPhrase
  = let t := trim (toLowerCase transcript) in
    let p := trim (toLowerCase triggerPhrase) in
    includes t p
    || includes t (replace_first_space p)
    || (levenshteinDistance t p <=? 2)%nat
    || (existsb (fun word => (levenshteinDistance word "help" <=? 1)%nat)
                (split_space t)
        && includes t "aura")
    || includes t "aurora".
Proof.
  unfold triggerMatches, help_word_clause. cbv zeta.
  rewrite (existsb_or_const
             (fun word => (levenshteinDistance word "help" <=? 1)%nat))
    by apply split_space_nonempty.
  rewrite !orb_assoc. reflexivity.
Qed.

(** C1: on the transcript "the aurora was beautiful tonight" with the
    trigger phrase "Help Aura" the code's condition is true, while the
    matcher of the specification, which groups the fourth condition as
    (word within distance 1 of 'help') AND (contains 'aura' OR contains
    'aurora'), is false: none of the conditions 1 to 3 holds and no word is
    within distance 1 of 'help'. *)
Theorem C1_aurora_alone_fires_the_trigger :
  let transcript := "the aurora was beautiful tonight" in
  let t := trim (toLowerCase transcript) in
  let p := trim (toLowerCase "Help Aura") in
  triggerMatches transcript "Help Aura" = true
  /\ matches_spec transcript "Help Aura" = false
  /\ includes t p = false
  /\ includes t (replace_first_space p) = false
  /\ (levenshteinDistance t p <=? 2)%nat = false
  /\ existsb (fun word => (levenshteinDistance word "help" <=? 1)%nat)
             (split_space t) = false
  /\ includes t "aurora" = true.
Proof. vm_compute. repeat split. Qed.

End MatcherClaims.

(** ** The alert methods of the service *)

Module AlertFacts.
Import ApiService.

(** Unfolding of the small monad. *)
Ltac run_js :=
  unfold bind, ret, throw, await, try_catch, try_finally, modify, gets, when,
    log, update in *;
  cbn [fst snd app_state calls] in *.

(** [triggerSmsAlert] returns the collaborator's answer, or a mock; the
    store keeps its cells, and the calls grow by the entry and at most one
    request. *)
Lemma triggerSmsAlert_run (env : Env) (userId : string) (location : Location)
  (w : World) :
  triggerSmsAlert env userId location w
  = (Normal (match collaborator_answer env "/send-aura-alert" userId location with
             | Some r => r
             | None => sms_degraded env
             end),
     {| app_state := app_state w;
        calls := (calls w ++ [EnterSmsAlert userId location])
                 ++ (if supabase_unconfigured env then []
                     else [CallAlert (baseUrl env ++ "/send-aura-alert")%string
                             userId location]) |}).
Proof.
  unfold triggerSmsAlert, collaborator_answer, sms_degraded. run_js.
  destruct (supabase_unconfigured env); cbn.
  - rewrite app_nil_r. reflexivity.
  - destruct (alert_api env _ userId location) as [response|e]; cbn;
      [|reflexivity].
    destruct (ok response); cbn; [|reflexivity].
    destruct (body response); reflexivity.
Qed.

Lemma triggerSOSAlert_run (env : Env) (userId : string) (location : Location)
  (w : World) :
  triggerSOSAlert env userId location w
  = (Normal (match collaborator_answer env "/send-sos-alert" userId location with
             | Some r => r
             | None => sos_degraded env location
             end),
     {| app_state := app_state w;
        calls := (calls w ++ [EnterSOSAlert userId location])
                 ++ (if supabase_unconfigured env then []
                     else [CallAlert (baseUrl env ++ "/send-sos-alert")%string
                             userId location]) |}).
Proof.
  unfold triggerSOSAlert, collaborator_answer, sos_degraded. run_js.
  destruct (supabase_unconfigured env); cbn.
  - rewrite app_nil_r. reflexivity.
  - destruct (alert_api env _ userId location) as [response|e]; cbn;
      [|reflexivity].
    destruct (ok response); cbn; [|reflexivity].
    destruct (body response); reflexivity.
Qed.

End AlertFacts.

(** ** Claims C4, C5 and C6: what alert dispatch returns and when it runs *)

Module AlertClaims.
Import UseAuraState ApiService App AlertFacts Scenario.

#[local] Arguments triggerSOSAlert : simpl never.
#[local] Arguments triggerSmsAlert : simpl never.

(** What [handleSOSActivate] leaves behind when the position is known. *)
Lemma handleSOSActivate_located (env : Env) (w : World) (coords : Location) :
  geolocation env = GeoPosition coords ->
  let uid := id (userProfile (app_state w)) in
  let w' := snd (handleSOSActivate env w) in
  sosAlertResult (aura (app_state w'))
  = Some (match collaborator_answer env "/send-sos-alert" uid coords with
          | Some r => r
          | None => sos_degraded env coords
          end)
  /\ dispatches w' = dispatches w ++ [EnterSOSAlert uid coords]
  /\ state (aura (app_state w')) = SOS_ACTIVE
  /\ currentView (app_state w') = sos_confirmation
  /\ sosProcessing (app_state w') = false.
Proof.
  intros Hgeo. unfold handleSOSActivate, App.getCurrentLocation. run_js.
  rewrite Hgeo. cbn. rewrite triggerSOSAlert_run. cbn.
  repeat split.
  unfold dispatches. cbn [calls]. rewrite !filter_app. cbn.
  destruct (supabase_unconfigured env); cbn; rewrite ?app_nil_r; reflexivity.
Qed.

(** What [handleSOSActivate] leaves behind when the position is not known. *)
Lemma handleSOSActivate_unlocated (env : Env) (w : World) :
  location_fails env = true ->
  let w' := snd (handleSOSActivate env w) in
  sosAlertResult (aura (app_state w')) = Some (sos_error_result env)
  /\ dispatches w' = dispatches w
  /\ state (aura (app_state w')) = SOS_ACTIVE
  /\ currentView (app_state w') = sos_confirmation
  /\ sosProcessing (app_state w') = false.
Proof.
  unfold location_fails. intros Hgeo.
  unfold handleSOSActivate, App.getCurrentLocation. run_js.
  destruct (geolocation env); [|discriminate|]; cbn; repeat split;
    unfold dispatches; cbn [calls]; rewrite !filter_app; cbn;
    rewrite ?app_nil_r; reflexivity.
Qed.



(** C5 (as amended): [triggerSmsAlert] and [triggerSOSAlert] never throw.
    Each returns the collaborator's answer verbatim when there is one;
    otherwise the result has [success = true], with [contactsNotified = 3]
    for the SOS alert and with no [data], hence no count, for the SMS
    alert. *)
Theorem C5_alert_methods_never_throw :
  forall (env : Env) (userId : string) (location : Location) (w : World),
    (exists r w',
        triggerSmsAlert env userId location w = (Normal r, w')
        /\ (collaborator_answer env "/send-aura-alert" userId location = Some r
            \/ (collaborator_answer env "/send-aura-alert" userId location = None
                /\ success r = true /\ data r = None)))
    /\ (exists r w',
          triggerSOSAlert env userId location w = (Normal r, w')
          /\ (collaborator_answer env "/send-sos-alert" userId location = Some r
              \/ (collaborator_answer env "/send-sos-alert" userId location = None
                  /\ success r = true
                  /\ exists d, data r = Some d /\ contactsNotified d = Some 3%Z))).
Proof.
  intros env userId location w. split.
  - do 2 eexists. split; [apply triggerSmsAlert_run|].
    destruct (collaborator_answer env "/send-aura-alert" userId location);
      [left; reflexivity | right].
    unfold sms_degraded. destruct (supabase_unconfigured env); repeat split.
  - do 2 eexists. split; [apply triggerSOSAlert_run|].
    destruct (collaborator_answer env "/send-sos-alert" userId location);
      [left; reflexivity | right].
    unfold sos_degraded.
    destruct (supabase_unconfigured env);
      (split; [reflexivity|]; split; [reflexivity|]; eexists; split; reflexivity).
Qed.

(** C5, counterexample: with no backend configured [triggerSmsAlert]
    returns a result that has no [data] object, so no [contactsNotified]. *)
Lemma C5_sms_mock_has_no_contact_count :
  exists r,
    fst (triggerSmsAlert env_offline "user_1" somewhere world0) = Normal r
    /\ success r = true
    /\ data r = None.
Proof. eexists. vm_compute. repeat split. Qed.

(** C6: when the position cannot be obtained, [handleSOSActivate] enters
    neither alert method: no alert is dispatched, no fallback location is
    substituted, and the recorded result is the error result with
    [success = false] and [contactsNotified = 0]. *)
Theorem C6_sos_path_drops_alert_without_location :
  forall (env : Env) (w : World),
    location_fails env = true ->
    let w' := snd (handleSOSActivate env w) in
    dispatches w' = dispatches w
    /\ sosAlertResult (aura (app_state w')) = Some (sos_error_result env)
    /\ state (aura (app_state w')) = SOS_ACTIVE.
Proof.
  intros env w H.
  destruct (handleSOSActivate_unlocated env w H) as (H1 & H2 & H3 & _).
  repeat split; assumption.
Qed.

Lemma C6_witness :
  location_fails env_no_location = true
  /\ dispatches (snd (handleSOSActivate env_no_location world0)) = []
  /\ sosAlertResult (aura (app_state (snd (handleSOSActivate env_no_location world0))))
     = Some (sos_error_result env_no_location).
Proof.
  split; [reflexivity|].
  destruct (C6_sos_path_drops_alert_without_location env_no_location world0 eq_refl)
    as (H1 & H2 & _).
  split; [exact H1 | exact H2].
Defined.

End AlertClaims.

(** ** Claim C3: the safety state and the transition table *)

Module SafetyClaims.
Import UseAuraState SafetySpec App Scenario.

(** C3 (as amended): every operation writes its own fixed state whatever
    the current state is: activate writes Active, deactivate and resetToIdle
    write Idle, triggerAlert writes Alert, triggerSOS writes SOSActive,
    triggerEmergencyVoice writes EmergencyVoice.  Every edge of the table of
    section 4.3 is such a transition, and the three update operations leave
    the state alone. *)
Theorem C3_operations_write_fixed_targets :
  (forall (o : Operation) (h : AuraHook), state (run_op o h) = target o)
  /\ (forall (from to : AuraState) (o : Operation),
        edge from o to = true -> to = target o)
  /\ (forall (h : AuraHook) (text : string) (r : ApiResponse),
        state (updateTranscription text h) = state h
        /\ state (updateAiResponse text h) = state h
        /\ state (updateSOSResult r h) = state h).
Proof.
  split; [|split].
  - intros [] h; reflexivity.
  - intros [] [] []; cbn; intro H; try reflexivity; discriminate.
  - intros h text r. repeat split.
Qed.

(** C3, counterexample: from the initial state, triggerEmergencyVoice and
    then triggerSOS lead from EmergencyVoice to SOSActive, which is no edge
    of the table; the application does this when the voice trigger fires
    during an emergency-voice call. *)
Lemma C3_emergency_voice_to_sos_leaves_the_table :
  along_edges [OpTriggerEmergencyVoice; OpTriggerSOS] initial = false
  /\ state (run_ops [OpTriggerEmergencyVoice] initial) = EMERGENCY_VOICE
  /\ state (run_ops [OpTriggerEmergencyVoice; OpTriggerSOS] initial) = SOS_ACTIVE
  /\ edge EMERGENCY_VOICE OpTriggerSOS SOS_ACTIVE = false
  /\ (let w1 := snd (handleEmergencyVoiceActivate env_offline world0) in
      let w2 := snd (handleSOSActivate env_offline w1) in
      state (aura (app_state world0)) = IDLE
      /\ state (aura (app_state w1)) = EMERGENCY_VOICE
      /\ state (aura (app_state w2)) = SOS_ACTIVE).
Proof. vm_compute. repeat split. Qed.

End SafetyClaims.

(** ** The audio pipeline *)

Module PipelineFacts.
Import UseAuraState ApiService App AlertFacts.

Lemma getAIResponse_run (env : Env) (t : string) (mode : bool) (w : World) :
  getAIResponse env t mode w
  = (Normal (chat_reply env t mode),
     {| app_state := app_state w;
        calls := calls w
                 ++ [CallChat (if mode then assertive_prompt else calm_prompt) t] |}).
Proof.
  unfold getAIResponse, chat_reply. run_js.
  destruct (chat_api env _ t) as [response|e]; cbn; [|reflexivity].
  destruct (ok response); cbn; [|reflexivity].
  destruct (body response) as [result|e]; cbn; [|reflexivity].
  destruct (first_content result); reflexivity.
Qed.

Lemma transcribeAudio_failed (env : Env) (w : World) :
  transcription_fails env = true ->
  transcribeAudio env w
  = (Normal mock_transcription,
     {| app_state := app_state w; calls := calls w ++ [CallTranscribe] |}).
Proof.
  unfold transcription_fails, transcribeAudio. run_js. intro H.
  destruct (transcription_api env) as [response|e]; cbn; [|reflexivity].
  destruct (ok response); cbn in *; [|reflexivity].
  destruct (body response); [discriminate | reflexivity].
Qed.

Lemma mock_transcription_is_a_threat : detectThreat mock_transcription = true.
Proof. vm_compute. reflexivity. Qed.

(** When the audio element plays to its end, [playAudioResponse] returns. *)
Lemma playAudioResponse_completes (env : Env) (t : string) (w : World) :
  audio_playback env = Normal tt ->
  playAudioResponse env t w
  = (Normal tt,
     {| app_state := app_state w; calls := calls w ++ playback_calls env t |}).
Proof.
  intro Hplay. unfold playAudioResponse, generateSpeech, playback_calls. run_js.
  rewrite Hplay.
  destruct (tts_api env t) as [response|e]; cbn;
    [destruct (ok response); cbn;
     [destruct (body response) as [[|n]|e]; cbn|]|];
    try destruct (has_speechSynthesis env); run_js; cbn;
    rewrite <- ?app_assoc; reflexivity.
Qed.

Lemma dispatches_playback (env : Env) (t : string) :
  filter (fun c => match c with
                   | EnterSmsAlert _ _ | EnterSOSAlert _ _ => true
                   | _ => false
                   end) (playback_calls env t) = [].
Proof.
  unfold playback_calls. cbn [filter].
  destruct (0 <? _)%nat; [reflexivity|].
  destruct (has_speechSynthesis env); reflexivity.
Qed.

#[local] Arguments transcribeAudio : simpl never.
#[local] Arguments getAIResponse : simpl never.
#[local] Arguments playAudioResponse : simpl never.
#[local] Arguments triggerSmsAlert : simpl never.
#[local] Arguments detectThreat : simpl never.

(** The pipeline after a failed transcription. *)
Lemma processAudioWorkflow_failed_transcription (env : Env) (w : World) :
  transcription_fails env = true ->
  processAudioWorkflow env w
  = (Normal {| Types.transcription := mock_transcription;
               threat_detected := true;
               ai_response := chat_reply env mock_transcription true |},
     {| app_state := app_state w;
        calls := (calls w ++ [CallTranscribe])
                 ++ [CallChat assertive_prompt mock_transcription] |}).
Proof.
  intro H. unfold processAudioWorkflow. run_js.
  rewrite (transcribeAudio_failed env w H). cbn.
  rewrite mock_transcription_is_a_threat, getAIResponse_run. reflexivity.
Qed.

(** The threat path of [processAudio] after a failed transcription, when
    playback completes. *)
Lemma processAudio_failed_transcription (env : Env) (w : World) :
  transcription_fails env = true ->
  audioBlob (app_state w) && isListening (aura (app_state w)) = true ->
  audio_playback env = Normal tt ->
  let w' := snd (processAudio env w) in
  state (aura (app_state w')) = ALERT
  /\ dispatches w'
     = dispatches w
       ++ [EnterSmsAlert (id (userProfile (app_state w))) (alert_location env)].
Proof.
  intros Hfail Hready Hplay. unfold processAudio. run_js.
  rewrite Hready. cbn.
  rewrite processAudioWorkflow_failed_transcription by exact Hfail. cbn.
  rewrite playAudioResponse_completes by exact Hplay. cbn.
  unfold App.getCurrentLocation, alert_location. run_js.
  destruct (geolocation env) as [|coords|code]; cbn;
    rewrite triggerSmsAlert_run; cbn; (split; [reflexivity|]);
    unfold dispatches; cbn [calls]; rewrite !filter_app, dispatches_playback;
    cbn; destruct (supabase_unconfigured env); cbn; rewrite ?app_nil_r;
    reflexivity.
Qed.

End PipelineFacts.

(** ** The recognition hook: an invariant of every run *)

Module HookFacts.
Import TriggerMatcher UseVoiceActivation.

Lemma update_nth_length {A} (f : A -> A) (l : list A) (n : nat) :
  List.length (update_nth n f l) = List.length l.
Proof.
  revert n. induction l as [|x l IH]; intros [|n]; cbn; auto.
Qed.

Lemma update_nth_nil_iff {A} (f : A -> A) (l : list A) (n : nat) :
  update_nth n f l = [] <-> l = [].
Proof.
  split; intro H.
  - apply (f_equal (@List.length A)) in H. rewrite update_nth_length in H.
    destruct l; [reflexivity | discriminate].
  - subst l. destruct n; reflexivity.
Qed.

Lemma nth_error_update_nth {A} (f : A -> A) (l : list A) (n : nat) :
  nth_error (update_nth n f l) n = option_map f (nth_error l n).
Proof.
  revert n. induction l as [|x l IH]; intros [|n]; cbn; auto.
Qed.




Lemma Inv_cells (h : Hook) (l : bool) (t : string) (e : option string)
  (p : PermissionStatus) :
  Inv h -> (l = true -> isListening h = true) -> Inv (with_cells h l t e p).
Proof. intros [H1 H2] Hl. split; cbn; auto. Qed.

Lemma Inv_set_enabled (b : bool) (h : Hook) : Inv h -> Inv (set_enabled b h).
Proof. intros [H1 H2]. split; cbn; auto. Qed.

Lemma Inv_stop_recognition (rid : nat) (h : Hook) :
  Inv h -> Inv (stop_recognition rid h).
Proof.
  intros [H1 H2]. split; cbn; rewrite update_nth_nil_iff; auto.
Qed.

Lemma Inv_set_status (rid : nat) (s : RecStatus) (h : Hook) :
  Inv h ->
  Inv (with_browser h (recognitionRef h)
         (update_nth rid (set_status s) (recognitions h))
         (timers h) (activations h) (starts h)).
Proof.
  intros [H1 H2]. split; cbn; rewrite update_nth_nil_iff; auto.
Qed.

Lemma Inv_platform_start (now : Z) (rid : nat) (h : Hook) :
  Inv h -> Inv (platform_start now rid h).
Proof.
  intros [H1 H2]. split; cbn; rewrite update_nth_nil_iff; auto.
Qed.

Lemma Inv_startListening (now : Z) (c : Closure) (h : Hook) :
  Inv h -> Inv (startListening now c h).
Proof.
  intro H. unfold startListening. destruct (supported h); cbn.
  - split; cbn; intros _; [discriminate|].
    rewrite update_nth_nil_iff. destruct (recognitions h); discriminate.
  - apply Inv_cells; auto.
Qed.

Lemma Inv_stopListening (h : Hook) : Inv h -> Inv (stopListening h).
Proof.
  intro H. unfold stopListening. destruct (recognitionRef h); [|exact H].
  apply Inv_cells; [apply Inv_stop_recognition; exact H | discriminate].
Qed.

Lemma Inv_rerender (now : Z) (old h : Hook) : Inv h -> Inv (rerender now old h).
Proof.
  intro H. unfold rerender. destruct (_ && _); [exact H|].
  assert (Inv (effect_cleanup h)) as Hc.
  { unfold effect_cleanup. destruct (recognitionRef h);
      [apply Inv_stop_recognition|]; exact H. }
  unfold effect_body.
  destruct (_ && _); [apply Inv_startListening; exact Hc|].
  destruct (_ && _); [apply Inv_stopListening; exact Hc | exact Hc].
Qed.

Lemma Inv_setPermissionStatus (now : Z) (p : PermissionStatus) (h : Hook) :
  Inv h -> Inv (setPermissionStatus now p h).
Proof.
  intro H. apply Inv_rerender. apply Inv_cells; auto.
Qed.

Lemma Inv_step (now : Z) (e : Event) (h h' : Hook) :
  Inv h -> step now e h = Some h' -> Inv h'.
Proof.
  intros H Hs. destruct e; cbn [step] in Hs.
  - destruct (supported h); [|discriminate]. injection Hs as <-.
    apply Inv_setPermissionStatus; exact H.
  - destruct (supported h); [|discriminate]. injection Hs as <-.
    apply Inv_setPermissionStatus; exact H.
  - injection Hs as <-. apply Inv_rerender, Inv_set_enabled, H.
  - injection Hs as <-. destruct media; cbn.
    + apply Inv_setPermissionStatus; exact H.
    + apply Inv_setPermissionStatus. apply Inv_cells; auto.
  - destruct (nth_error (recognitions h) rid) as [r|] eqn:E; [|discriminate].
    destruct (status r); try discriminate. injection Hs as <-.
    unfold onstart. apply Inv_cells; [|auto].
    split; cbn; rewrite update_nth_nil_iff.
    + apply H.
    + intros _ Hnil. rewrite Hnil in E. destruct rid; discriminate.
  - destruct (nth_error (recognitions h) rid) as [r|] eqn:E; [|discriminate].
    assert (Inv (onresult now rid (captured r) resultIndex results h)) as Hr.
    { unfold onresult. cbv zeta. destruct (triggerMatches _ _).
      - pose proof (Inv_stop_recognition rid _
                      (Inv_cells h (isListening h)
                         (currentTranscript resultIndex results)
                         (error h) (permissionStatus h) H (fun x => x)))
          as [K1 K2].
        split; cbn in *; auto.
      - apply Inv_cells; auto. }
    destruct (status r); try discriminate; injection Hs as <-; exact Hr.
  - destruct (nth_error (recognitions h) rid) as [r|] eqn:E; [|discriminate].
    assert (Inv (onerror now code (stop_recognition rid h))) as Hr.
    { unfold onerror. cbv zeta.
      pose proof (Inv_stop_recognition rid h H) as Hst.
      destruct (String.eqb code "not-allowed").
      - apply Inv_setPermissionStatus. apply Inv_cells; auto.
      - apply Inv_cells; auto. }
    destruct (status r); try discriminate; injection Hs as <-; exact Hr.
  - destruct (nth_error (recognitions h) rid) as [r|] eqn:E; [|discriminate].
    assert (Inv (onend now rid (captured r)
                   (with_browser h (recognitionRef h)
                      (update_nth rid (set_status Inactive) (recognitions h))
                      (timers h) (activations h) (starts h)))) as Hr.
    { unfold onend. cbv zeta.
      pose proof (Inv_set_status rid Inactive h H) as Hst.
      destruct (_ && _).
      - apply Inv_platform_start. apply Inv_cells; [exact Hst | discriminate].
      - apply Inv_cells; [exact Hst | discriminate]. }
    destruct (status r); try discriminate; injection Hs as <-; exact Hr.
  - destruct (nth_error (timers h) k) as [t|]; [|discriminate].
    destruct (due t <=? now)%Z; [|discriminate]. injection Hs as <-.
    unfold timer_callback.
    assert (Inv (with_browser h (recognitionRef h) (recognitions h)
                   (remove_nth k (timers h)) (activations h) (starts h))) as Ht.
    { destruct H as [H1 H2]. split; cbn; auto. }
    destruct (c_enabled _); [apply Inv_startListening|]; exact Ht.
  - injection Hs as <-. apply Inv_startListening, H.
  - injection Hs as <-. apply Inv_stopListening, H.
Qed.

Lemma Inv_mount (isSupported enabledProp : bool) (phrase : string) :
  Inv (mount isSupported enabledProp phrase).
Proof. split; cbn; [intro H; contradiction | discriminate]. Qed.

Lemma Inv_run (events : list (Z * Event)) :
  forall clock h h', Inv h -> run clock events h = Some h' -> Inv h'.
Proof.
  induction events as [|[now e] rest IH]; intros clock h h' H Hr; cbn in Hr.
  - injection Hr as <-. exact H.
  - destruct (clock <=? now)%Z; [|discriminate].
    destruct (step now e h) as [h1|] eqn:Es; [|discriminate].
    exact (IH now h1 h' (Inv_step now e h h1 H Es) Hr).
Qed.


End HookFacts.

(** ** Claims C2 and C9: restart after a detection, and stopping twice *)

Module HookClaims.
Import TriggerMatcher UseVoiceActivation HookFacts Scenario.

(** C2: after the detection at 1500 ms the callback has run once, the
    session is stopping and one timer is due at 2500 ms; but the end event
    of the stopped session, arriving at 1520 ms, makes [onend] call
    [recognition.start()] at once, before the cooldown has elapsed, and when
    the timer fires at 2500 ms [startListening] starts a second object: two
    restarts follow one detection, and two sessions are then active. *)
Theorem C2_onend_restarts_before_cooldown :
  exists h1 h2 h3,
    run 0 trace_trigger hook0 = Some h1
    /\ activations h1 = 1
    /\ option_map status (nth_error (recognitions h1) 0) = Some Stopping
    /\ map due (timers h1) = [(1500 + cooldown_ms)%Z]
    /\ starts_after 1500 h1 = []
    /\ run 1500 trace_end h1 = Some h2
    /\ starts_between 1500 (1500 + cooldown_ms) h2 = [(1520%Z, 0)]
    /\ run 1520 trace_cooldown h2 = Some h3
    /\ starts_after 1500 h3 = [(1520%Z, 0); (2500%Z, 1)]
    /\ map status (recognitions h3) = [Running; Starting]
    /\ activations h3 = 1.
Proof.
  do 3 eexists. vm_compute. repeat split.
Qed.



End HookClaims.

(** ** Further properties of the distance and of the matcher *)

Module MatcherExtras.
Import EditScript LevenshteinFacts LevenshteinClaims TriggerMatcher
  JsStringFacts MatcherClaims.

Lemma list_ascii_length (s : string) :
  List.length (list_ascii_of_string s) = String.length s.
Proof. induction s as [|c s IH]; cbn; [reflexivity | rewrite IH; reflexivity]. Qed.

Lemma list_ascii_inj (a b : string) :
  list_ascii_of_string a = list_ascii_of_string b -> a = b.
Proof.
  intro H. rewrite <- (string_of_list_ascii_of_string a),
    <- (string_of_list_ascii_of_string b), H. reflexivity.
Qed.

Lemma levenshteinDistance_lev_rec (a b : string) :
  levenshteinDistance a b
  = lev_rec Ascii.eqb (list_ascii_of_string a) (list_ascii_of_string b).
Proof. apply distance_lev_rec. exact ascii_eqb_iff. Qed.

(** X5: The distance is 0 exactly between equal strings, and it does not
    depend on the order of its arguments. *)
Theorem levenshteinDistance_identity_and_symmetry :
  forall a b : string,
    (levenshteinDistance a b = 0 <-> a = b)
    /\ levenshteinDistance a b = levenshteinDistance b a.
Proof.
  intros a b. rewrite !levenshteinDistance_lev_rec. split; [split|].
  - intro H. apply list_ascii_inj.
    exact (lev_zero_eq Ascii.eqb ascii_eqb_iff _ _ H).
  - intros ->. apply lev_refl. exact ascii_eqb_iff.
  - apply lev_sym. exact ascii_eqb_iff.
Qed.

(** X6: The triangle inequality. *)
Theorem levenshteinDistance_triangle :
  forall a b c : string,
    levenshteinDistance a c <= levenshteinDistance a b + levenshteinDistance b c.
Proof.
  intros a b c. rewrite !levenshteinDistance_lev_rec.
  apply lev_triangle. exact ascii_eqb_iff.
Qed.

(** X7: The distance lies between the difference of the lengths and the
    greater length. *)
Theorem levenshteinDistance_length_bounds :
  forall a b : string,
    String.length a - String.length b <= levenshteinDistance a b
    /\ String.length b - String.length a <= levenshteinDistance a b
    /\ levenshteinDistance a b <= Nat.max (String.length a) (String.length b).
Proof.
  intros a b. rewrite levenshteinDistance_lev_rec, <- !list_ascii_length.
  destruct (lev_lower Ascii.eqb (list_ascii_of_string a) (list_ascii_of_string b))
    as [H1 H2].
  pose proof (lev_upper Ascii.eqb (list_ascii_of_string a) (list_ascii_of_string b)).
  auto.
Qed.

(** *** Normalisation *)

Lemma lower_char_idempotent (c : ascii) : lower_char (lower_char c) = lower_char c.
Proof. destruct c as [[] [] [] [] [] [] [] []]; reflexivity. Qed.

Lemma toLowerCase_idempotent (s : string) :
  toLowerCase (toLowerCase s) = toLowerCase s.
Proof.
  induction s as [|c s IH]; cbn; [reflexivity|].
  rewrite lower_char_idempotent, IH. reflexivity.
Qed.

Lemma is_space_lower_char (c : ascii) : is_space (lower_char c) = is_space c.
Proof. destruct c as [[] [] [] [] [] [] [] []]; reflexivity. Qed.

Lemma toLowerCase_app (s t : string) :
  toLowerCase (s ++ t) = (toLowerCase s ++ toLowerCase t)%string.
Proof. induction s as [|c s IH]; cbn; [reflexivity | rewrite IH; reflexivity]. Qed.

Lemma all_space_toLowerCase (s : string) :
  all_space (toLowerCase s) = all_space s.
Proof.
  induction s as [|c s IH]; cbn; [reflexivity|].
  rewrite is_space_lower_char, IH. reflexivity.
Qed.

Lemma trimStart_app_space (l s : string) :
  all_space l = true -> trimStart (l ++ s) = trimStart s.
Proof.
  induction l as [|c l IH]; cbn; [reflexivity|].
  intro H. apply andb_true_iff in H as [Hc Hl]. rewrite Hc. exact (IH Hl).
Qed.

Lemma trimEnd_all_space (r : string) : all_space r = true -> trimEnd r = ""%string.
Proof.
  induction r as [|c r IH]; cbn; [reflexivity|].
  intro H. apply andb_true_iff in H as [Hc Hr]. rewrite (IH Hr), Hc. reflexivity.
Qed.

Lemma trimEnd_app_space (s r : string) :
  all_space r = true -> trimEnd (s ++ r) = trimEnd s.
Proof.
  intro H. induction s as [|c s IH]; cbn.
  - apply trimEnd_all_space. exact H.
  - rewrite IH. reflexivity.
Qed.

Lemma trimStart_suffix (s r : string) :
  all_space s = false -> trimStart (s ++ r) = (trimStart s ++ r)%string.
Proof.
  induction s as [|c s IH]; cbn; [discriminate|].
  destruct (is_space c); cbn; [exact IH | reflexivity].
Qed.

Lemma trimStart_all_space (s : string) :
  all_space s = true -> trimStart s = ""%string.
Proof.
  induction s as [|c s IH]; cbn; [reflexivity|].
  intro H. apply andb_true_iff in H as [Hc Hs]. rewrite Hc. exact (IH Hs).
Qed.

(** Padding with white space on both sides does not change [trim]. *)
Lemma trim_padding (l s r : string) :
  all_space l = true -> all_space r = true -> trim (l ++ s ++ r) = trim s.
Proof.
  intros Hl Hr. unfold trim. rewrite trimStart_app_space by exact Hl.
  destruct (all_space s) eqn:Hs.
  - rewrite (trimStart_all_space s Hs).
    rewrite trimStart_all_space, trimEnd_all_space; [reflexivity.. |].
    clear - Hs Hr. induction s as [|c s IH]; cbn in *; [exact Hr|].
    apply andb_true_iff in Hs as [-> Hs]. exact (IH Hs).
  - rewrite trimStart_suffix by exact Hs. apply trimEnd_app_space. exact Hr.
Qed.

(** X4: The matcher ignores letter case and surrounding white space, in the
    transcript and in the trigger phrase. *)
Theorem triggerMatches_normalises :
  forall (t p l1 r1 l2 r2 : string),
    all_space l1 = true -> all_space r1 = true ->
    all_space l2 = true -> all_space r2 = true ->
    triggerMatches (l1 ++ toLowerCase t ++ r1) (l2 ++ toLowerCase p ++ r2)
    = triggerMatches t p.
Proof.
  intros t p l1 r1 l2 r2 H1 H2 H3 H4. unfold triggerMatches.
  rewrite !toLowerCase_app, !toLowerCase_idempotent.
  rewrite !trim_padding by (rewrite all_space_toLowerCase; assumption).
  reflexivity.
Qed.

Lemma triggerMatches_normalises_witness :
  triggerMatches ("  " ++ toLowerCase "HELP Aura" ++ " ")
                 (" " ++ toLowerCase "Help AURA" ++ "  ")
  = triggerMatches "HELP Aura" "Help AURA".
Proof.
  apply (triggerMatches_normalises "HELP Aura" "Help AURA" "  " " " " " "  ");
    reflexivity.
Defined.

(** X2: Any transcript in which 'aurora' occurs fires the trigger, whatever
    the trigger phrase is. *)
Theorem aurora_fires_every_trigger :
  forall t p : string,
    includes (trim (toLowerCase t)) "aurora" = true ->
    triggerMatches t p = true.
Proof.
  intros t p H. rewrite triggerMatches_unfolded. cbv zeta. rewrite H.
  apply orb_true_r.
Qed.

Lemma aurora_fires_every_trigger_witness :
  triggerMatches "Aurora borealis" "Open sesame" = true.
Proof. apply aurora_fires_every_trigger. reflexivity. Defined.

(** X3: A trigger phrase that is empty after normalisation matches every
    transcript, the empty one included. *)
Theorem blank_trigger_matches_everything :
  forall t p : string,
    trim (toLowerCase p) = ""%string ->
    triggerMatches t p = true.
Proof.
  intros t p H. unfold triggerMatches. rewrite H, includes_empty. reflexivity.
Qed.

Lemma blank_trigger_matches_everything_witness :
  triggerMatches "" "   " = true.
Proof. apply blank_trigger_matches_everything. reflexivity. Defined.

End MatcherExtras.

(** ** The recognition hook: bookkeeping, stale closures and timers *)

Module HookExtras.
Import TriggerMatcher UseVoiceActivation HookFacts Scenario.

Lemma WF_cells (h : Hook) (l : bool) (t : string) (e : option string)
  (p : PermissionStatus) :
  WellFormed h -> WellFormed (with_cells h l t e p).
Proof. intro H. exact H. Qed.

Lemma WF_set_enabled (b : bool) (h : Hook) :
  WellFormed h -> WellFormed (set_enabled b h).
Proof. intro H. exact H. Qed.

Lemma WF_update (rid : nat) (f : Recognition -> Recognition) (h : Hook) :
  WellFormed h ->
  WellFormed (with_browser h (recognitionRef h)
                (update_nth rid f (recognitions h))
                (timers h) (activations h) (starts h)).
Proof.
  intros (H1 & H2 & H3 & H4 & H5). unfold WellFormed; cbn.
  rewrite update_nth_length, update_nth_nil_iff. auto.
Qed.

Lemma WF_stop_recognition (rid : nat) (h : Hook) :
  WellFormed h -> WellFormed (stop_recognition rid h).
Proof. apply WF_update. Qed.

Lemma WF_platform_start (now : Z) (rid : nat) (h : Hook) :
  rid < List.length (recognitions h) ->
  WellFormed h -> WellFormed (platform_start now rid h).
Proof.
  intros Hrid (H1 & H2 & H3 & H4 & H5). unfold WellFormed; cbn.
  rewrite update_nth_length, update_nth_nil_iff.
  repeat split; auto.
  apply Forall_app. split; [exact H2|]. constructor; [exact Hrid | constructor].
Qed.

Lemma WF_startListening (now : Z) (c : Closure) (h : Hook) :
  WellFormed h -> WellFormed (startListening now c h).
Proof.
  intros (H1 & H2 & H3 & H4 & H5). unfold startListening.
  destruct (supported h) eqn:Hs; cbn;
    [|unfold WellFormed; cbn; repeat split; auto].
  unfold WellFormed; cbn. rewrite update_nth_length, update_nth_nil_iff.
  rewrite length_app. cbn [List.length]. repeat split.
  - intros rid E. injection E as <-. lia.
  - apply Forall_app. split.
    + eapply Forall_impl; [|exact H2]. cbn. intros a Ha. lia.
    + constructor; [cbn; lia | constructor].
  - exact H3.
  - intro E. destruct (recognitions h); discriminate.
  - rewrite Hs. discriminate.
Qed.

Lemma WF_stopListening (h : Hook) : WellFormed h -> WellFormed (stopListening h).
Proof.
  intro H. unfold stopListening. destruct (recognitionRef h); [|exact H].
  apply WF_cells, WF_stop_recognition, H.
Qed.

Lemma WF_rerender (now : Z) (old h : Hook) :
  WellFormed h -> WellFormed (rerender now old h).
Proof.
  intro H. unfold rerender. destruct (_ && _); [exact H|].
  assert (WellFormed (effect_cleanup h)) as Hc.
  { unfold effect_cleanup. destruct (recognitionRef h);
      [apply WF_stop_recognition|]; exact H. }
  unfold effect_body.
  destruct (_ && _); [apply WF_startListening; exact Hc|].
  destruct (_ && _); [apply WF_stopListening; exact Hc | exact Hc].
Qed.

Lemma WF_setPermissionStatus (now : Z) (p : PermissionStatus) (h : Hook) :
  WellFormed h -> WellFormed (setPermissionStatus now p h).
Proof. intro H. apply WF_rerender, WF_cells, H. Qed.

Lemma nth_error_lt {A} (l : list A) (n : nat) (x : A) :
  nth_error l n = Some x -> n < List.length l.
Proof. intro H. apply nth_error_Some. rewrite H. discriminate. Qed.

Lemma remove_nth_length {A} (l : list A) (n : nat) :
  List.length (remove_nth n l) <= List.length l.
Proof.
  revert n. induction l as [|x l IH]; intros [|n]; cbn; auto.
  specialize (IH n). lia.
Qed.

Lemma WF_step (now : Z) (e : Event) (h h' : Hook) :
  WellFormed h -> step now e h = Some h' -> WellFormed h'.
Proof.
  intros H Hs. destruct e; cbn [step] in Hs.
  - destruct (supported h); [|discriminate]. injection Hs as <-.
    apply WF_setPermissionStatus, H.
  - destruct (supported h); [|discriminate]. injection Hs as <-.
    apply WF_setPermissionStatus, H.
  - injection Hs as <-. apply WF_rerender, WF_set_enabled, H.
  - injection Hs as <-. destruct media; cbn.
    + apply WF_setPermissionStatus, H.
    + apply WF_setPermissionStatus, WF_cells, H.
  - destruct (nth_error (recognitions h) rid) as [r|] eqn:E; [|discriminate].
    destruct (status r); try discriminate. injection Hs as <-.
    unfold onstart. apply WF_cells, WF_cells, WF_update, H.
  - destruct (nth_error (recognitions h) rid) as [r|] eqn:E; [|discriminate].
    assert (WellFormed (onresult now rid (captured r) resultIndex results h))
      as Hr.
    { unfold onresult. cbv zeta. destruct (triggerMatches _ _).
      - destruct H as (H1 & H2 & H3 & H4 & H5).
        pose proof (nth_error_lt _ _ _ E) as Hlt.
        unfold WellFormed; cbn.
        rewrite update_nth_length, update_nth_nil_iff, length_app. cbn.
        repeat split; auto; try lia.
        intro Hnil. rewrite Hnil in Hlt. cbn in Hlt. lia.
      - apply WF_cells, H. }
    destruct (status r); try discriminate; injection Hs as <-; exact Hr.
  - destruct (nth_error (recognitions h) rid) as [r|] eqn:E; [|discriminate].
    assert (WellFormed (onerror now code (stop_recognition rid h))) as Hr.
    { unfold onerror. cbv zeta.
      pose proof (WF_stop_recognition rid h H) as Hst.
      destruct (String.eqb code "not-allowed").
      - apply WF_setPermissionStatus, WF_cells, Hst.
      - apply WF_cells, Hst. }
    destruct (status r); try discriminate; injection Hs as <-; exact Hr.
  - destruct (nth_error (recognitions h) rid) as [r|] eqn:E; [|discriminate].
    assert (WellFormed (onend now rid (captured r)
                          (with_browser h (recognitionRef h)
                             (update_nth rid (set_status Inactive) (recognitions h))
                             (timers h) (activations h) (starts h)))) as Hr.
    { unfold onend. cbv zeta.
      pose proof (WF_update rid (set_status Inactive) h H) as Hst.
      destruct (_ && _).
      - apply WF_platform_start; [|apply WF_cells, Hst].
        cbn. rewrite update_nth_length. exact (nth_error_lt _ _ _ E).
      - apply WF_cells, Hst. }
    destruct (status r); try discriminate; injection Hs as <-; exact Hr.
  - destruct (nth_error (timers h) k) as [t|] eqn:E; [|discriminate].
    destruct (due t <=? now)%Z; [|discriminate]. injection Hs as <-.
    unfold timer_callback.
    assert (WellFormed (with_browser h (recognitionRef h) (recognitions h)
                          (remove_nth k (timers h)) (activations h) (starts h)))
      as Ht.
    { destruct H as (H1 & H2 & H3 & H4 & H5). unfold WellFormed; cbn.
      pose proof (remove_nth_length (timers h) k). repeat split; auto. lia. }
    destruct (c_enabled _); [apply WF_startListening|]; exact Ht.
  - injection Hs as <-. apply WF_startListening, H.
  - injection Hs as <-. apply WF_stopListening, H.
Qed.

Lemma WF_mount (isSupported enabledProp : bool) (phrase : string) :
  WellFormed (mount isSupported enabledProp phrase).
Proof.
  unfold WellFormed; cbn. repeat split; auto; try discriminate.
Qed.

Lemma WF_run (events : list (Z * Event)) :
  forall clock h h', WellFormed h -> run clock events h = Some h' -> WellFormed h'.
Proof.
  induction events as [|[now e] rest IH]; intros clock h h' H Hr; cbn in Hr.
  - injection Hr as <-. exact H.
  - destruct (clock <=? now)%Z; [|discriminate].
    destruct (step now e h) as [h1|] eqn:Es; [|discriminate].
    exact (IH now h1 h' (WF_step now e h h1 H Es) Hr).
Qed.

Lemma supported_step (now : Z) (e : Event) (h h' : Hook) :
  step now e h = Some h' -> supported h' = supported h.
Proof.
  intro Hs. destruct e; cbn [step] in Hs;
    repeat match type of Hs with
      | context [match ?x with _ => _ end] => destruct x eqn:?; try discriminate
      end;
    injection Hs as <-;
    unfold setPermissionStatus, requestPermission, rerender, effect_body,
      effect_cleanup, startListening, stopListening, onstart, onresult,
      onerror, onend, timer_callback, setPermissionStatus, rerender,
      effect_body, effect_cleanup, startListening, stopListening;
    cbn;
    repeat match goal with
      | |- context [if ?c then _ else _] => destruct c; cbn
      | |- context [match ?x with _ => _ end] => destruct x; cbn
      end; first [reflexivity | assumption | congruence].
Qed.

Lemma supported_run (events : list (Z * Event)) :
  forall clock h h', run clock events h = Some h' -> supported h' = supported h.
Proof.
  induction events as [|[now e] rest IH]; intros clock h h' Hr; cbn in Hr.
  - injection Hr as <-. reflexivity.
  - destruct (clock <=? now)%Z; [|discriminate].
    destruct (step now e h) as [h1|] eqn:Es; [|discriminate].
    rewrite (IH now h1 h' Hr). exact (supported_step now e h h1 Es).
Qed.

(** X9: In every state a run reaches, the ref and every recorded start
    designate an existing recognition object, every pending timer comes
    from an activation, and the hook reports listening only after an object
    was created, to which the ref then points. *)
Theorem hook_bookkeeping_is_sound :
  forall (isSupported enabledProp : bool) (phrase : string)
         (events : list (Z * Event)) (h : Hook),
    run 0 events (mount isSupported enabledProp phrase) = Some h ->
    (forall rid, recognitionRef h = Some rid ->
                 exists r, nth_error (recognitions h) rid = Some r)
    /\ (forall t rid, In (t, rid) (starts h) ->
                      exists r, nth_error (recognitions h) rid = Some r)
    /\ List.length (timers h) <= activations h
    /\ (isListening h = true -> exists rid, recognitionRef h = Some rid).
Proof.
  intros isSupported enabledProp phrase events h Hrun.
  pose proof (WF_run events 0 _ h (WF_mount _ _ _) Hrun) as (H1 & H2 & H3 & _).
  pose proof (Inv_run events 0 _ h (Inv_mount _ _ _) Hrun) as [I1 I2].
  repeat split.
  - intros rid E. specialize (H1 rid E).
    destruct (nth_error (recognitions h) rid) eqn:En; [eauto|].
    apply nth_error_None in En. lia.
  - intros t rid Hin. rewrite Forall_forall in H2. specialize (H2 _ Hin). cbn in H2.
    destruct (nth_error (recognitions h) rid) eqn:En; [eauto|].
    apply nth_error_None in En. lia.
  - exact H3.
  - intro Hl. destruct (recognitionRef h) as [rid|] eqn:E; [eauto|].
    exfalso. exact (I1 (I2 Hl) eq_refl).
Qed.

Lemma hook_bookkeeping_is_sound_witness :
  List.length (timers hook_after_cooldown) <= activations hook_after_cooldown.
Proof.
  assert (run 0 (trace_trigger ++ trace_end ++ trace_cooldown) hook0
          = Some hook_after_cooldown) as H by (vm_compute; reflexivity).
  exact (proj1 (proj2 (proj2
           (hook_bookkeeping_is_sound true true "Help Aura" _ _ H)))).
Defined.

(** X10: In a browser without speech recognition no run ever creates or starts
    a recognition object, reports listening, activates or schedules a
    timer; in every state such a run reaches, [startListening] only records
    the error "Speech recognition is not supported in this browser." and
    leaves every other cell and the browser side as they were. *)
Theorem unsupported_browser_never_listens :
  forall (enabledProp : bool) (phrase : string)
         (events : list (Z * Event)) (h : Hook),
    run 0 events (mount false enabledProp phrase) = Some h ->
    recognitions h = []
    /\ starts h = []
    /\ timers h = []
    /\ activations h = 0
    /\ isListening h = false
    /\ recognitionRef h = None
    /\ (forall (now : Z) (c : Closure),
          startListening now c h
          = setError (Some "Speech recognition is not supported in this browser.") h
          /\ error (startListening now c h)
             = Some "Speech recognition is not supported in this browser."%string
          /\ recognitions (startListening now c h) = []
          /\ starts (startListening now c h) = []
          /\ isListening (startListening now c h) = false
          /\ permissionStatus (startListening now c h) = permissionStatus h
          /\ step now StartListeningCalled h
             = Some (setError
                       (Some "Speech recognition is not supported in this browser.")
                       h)).
Proof.
  intros enabledProp phrase events h Hrun.
  pose proof (WF_run events 0 _ h (WF_mount _ _ _) Hrun)
    as (H1 & H2 & H3 & H4 & H5).
  pose proof (Inv_run events 0 _ h (Inv_mount _ _ _) Hrun) as [I1 I2].
  pose proof (supported_run events 0 _ h Hrun) as Hs. cbn in Hs.
  specialize (H5 Hs). specialize (H4 H5).
  assert (starts h = []) as Hst.
  { rewrite H5 in H2. destruct (starts h) as [|s l]; [reflexivity|].
    inversion H2; subst. cbn in *. lia. }
  assert (isListening h = false) as Hl.
  { destruct (isListening h); [|reflexivity]. exfalso. exact (I2 eq_refl H5). }
  assert (forall now c,
             startListening now c h
             = setError (Some "Speech recognition is not supported in this browser.")
                 h) as Hsl.
  { intros now c. unfold startListening. rewrite Hs. reflexivity. }
  split; [exact H5|]. split; [exact Hst|]. split.
  { rewrite H4 in H3. destruct (timers h); [reflexivity | cbn in H3; lia]. }
  split; [exact H4|]. split; [exact Hl|]. split.
  { destruct (recognitionRef h) as [rid|]; [|reflexivity].
    specialize (H1 rid eq_refl). rewrite H5 in H1. cbn in H1. lia. }
  intros now c. cbn [step]. rewrite (Hsl now c), (Hsl now (current_closure h)).
  cbn. repeat split; assumption.
Qed.

Lemma unsupported_browser_never_listens_witness :
  recognitions hook_unsupported = [] /\ starts hook_unsupported = [].
Proof.
  assert (run 0 trace_unsupported (mount false true "Help Aura")
          = Some hook_unsupported) as H by (vm_compute; reflexivity).
  destruct (unsupported_browser_never_listens true "Help Aura" _ _ H)
    as (H1 & H2 & _).
  split; [exact H1 | exact H2].
Defined.

(** X11: The end handler decides on the values its closure captured: an object
    created while the feature was enabled and the permission granted is
    restarted by its end event whatever the current [enabled] prop and
    permission are; the hook's own flags are left as they were. *)
Theorem onend_restarts_from_captured_flags :
  forall (now : Z) (rid : nat) (r : Recognition) (h : Hook),
    nth_error (recognitions h) rid = Some r ->
    status r <> Inactive ->
    c_enabled (captured r) = true ->
    c_permissionStatus (captured r) = granted ->
    exists h',
      step now (RecEnded rid) h = Some h'
      /\ option_map status (nth_error (recognitions h') rid) = Some Starting
      /\ starts h' = starts h ++ [(now, rid)]
      /\ enabled h' = enabled h
      /\ permissionStatus h' = permissionStatus h.
Proof.
  intros now rid r h Hr Hst Hen Hperm. cbn [step]. rewrite Hr.
  unfold onend. rewrite Hen, Hperm. cbn.
  eexists. split.
  - destruct (status r); [contradiction | reflexivity..].
  - cbn. rewrite !nth_error_update_nth, Hr. cbn. repeat split.
Qed.

Lemma onend_restarts_from_captured_flags_witness :
  enabled hook_disabled = false
  /\ isListening hook_disabled = false
  /\ exists h',
       step 5020 (RecEnded 0) hook_disabled = Some h'
       /\ option_map status (nth_error (recognitions h') 0) = Some Starting
       /\ starts h' = starts hook_disabled ++ [(5020%Z, 0)]
       /\ enabled h' = enabled hook_disabled
       /\ permissionStatus h' = permissionStatus hook_disabled.
Proof.
  split; [vm_compute; reflexivity|]. split; [vm_compute; reflexivity|].
  apply (onend_restarts_from_captured_flags 5020 0
           {| captured := {| c_enabled := true; c_permissionStatus := granted;
                             c_triggerPhrase := "Help Aura" |};
              status := Stopping |} hook_disabled).
  - vm_compute. reflexivity.
  - discriminate.
  - reflexivity.
  - reflexivity.
Defined.

(** X12: [stopListening] cancels no timer, and a due timer whose closure
    captured [enabled = true] creates and starts a new recognition object
    whatever the current [enabled] prop is. *)
Theorem pending_restart_survives_stop :
  forall (now : Z) (k : nat) (t : Timer) (h : Hook),
    supported h = true ->
    nth_error (timers (stopListening h)) k = Some t ->
    (due t <= now)%Z ->
    c_enabled (timer_closure t) = true ->
    timers (stopListening h) = timers h
    /\ exists h',
         step now (TimerFired k) (stopListening h) = Some h'
         /\ recognitions h'
            = recognitions (stopListening h)
              ++ [{| captured := timer_closure t; status := Starting |}]
         /\ recognitionRef h' = Some (List.length (recognitions h))
         /\ starts h' = starts h ++ [(now, List.length (recognitions h))].
Proof.
  intros now k t h Hsup Ht Hdue Hen.
  assert (timers (stopListening h) = timers h
          /\ supported (stopListening h) = true
          /\ starts (stopListening h) = starts h
          /\ List.length (recognitions (stopListening h))
             = List.length (recognitions h)) as (Ht1 & Hs1 & Hst1 & Hl1).
  { unfold stopListening. destruct (recognitionRef h); cbn;
      rewrite ?update_nth_length; auto. }
  split; [exact Ht1|].
  cbn [step]. rewrite Ht. apply Z.leb_le in Hdue. rewrite Hdue.
  unfold timer_callback. rewrite Hen. unfold startListening. cbn.
  rewrite Hs1. cbn. eexists. split; [reflexivity|]. cbn.
  rewrite Hl1, Hst1. repeat split.
  set (l := recognitions (stopListening h)) in *. clearbody l.
  rewrite <- Hl1. clear. induction l as [|x l IH]; cbn; [reflexivity|].
  rewrite IH. reflexivity.
Qed.

Lemma pending_restart_survives_stop_witness :
  enabled hook_disabled_in_cooldown = false
  /\ exists h',
       step 2500 (TimerFired 0) (stopListening hook_disabled_in_cooldown) = Some h'
       /\ recognitionRef h' = Some (List.length (recognitions hook_disabled_in_cooldown))
       /\ starts h'
          = starts hook_disabled_in_cooldown
            ++ [(2500%Z, List.length (recognitions hook_disabled_in_cooldown))].
Proof.
  split; [vm_compute; reflexivity|].
  assert (supported hook_disabled_in_cooldown = true) as Hs
    by (vm_compute; reflexivity).
  assert (nth_error (timers (stopListening hook_disabled_in_cooldown)) 0
          = Some {| due := 2500;
                    timer_closure := {| c_enabled := true;
                                        c_permissionStatus := granted;
                                        c_triggerPhrase := "Help Aura" |} |})
    as Ht by (vm_compute; reflexivity).
  destruct (pending_restart_survives_stop 2500 0 _ hook_disabled_in_cooldown Hs Ht)
    as (_ & h' & H1 & _ & H3 & H4); [discriminate | reflexivity |].
  exists h'. repeat split; assumption.
Defined.

(** A result event whose transcript matches calls [onActivate] once, stops
    the object and schedules one timer due exactly [cooldown_ms] later; it
    starts nothing itself.  A result event that does not match only updates
    the transcript. *)
Theorem onresult_activates_once :
  forall (now : Z) (rid : nat) (c : Closure) (resultIndex : nat)
         (results : list SpeechResult) (h : Hook),
    let t := currentTranscript resultIndex results in
    let h' := onresult now rid c resultIndex results h in
    transcript h' = t
    /\ starts h' = starts h
    /\ isListening h' = isListening h
    /\ (triggerMatches t (c_triggerPhrase c) = true ->
        activations h' = S (activations h)
        /\ timers h' = timers h ++ [{| due := now + 1000; timer_closure := c |}]
        /\ recognitions h' = update_nth rid platform_stop (recognitions h))
    /\ (triggerMatches t (c_triggerPhrase c) = false ->
        activations h' = activations h
        /\ timers h' = timers h
        /\ recognitions h' = recognitions h).
Proof.
  intros now rid c resultIndex results h t h'. subst t h'. unfold onresult.
  cbv zeta. destruct (triggerMatches _ _); cbn; repeat split; discriminate.
Qed.

Lemma nth_error_update_nth_other {A} (f : A -> A) (l : list A) (n m : nat) :
  n <> m -> nth_error (update_nth n f l) m = nth_error l m.
Proof.
  revert n m. induction l as [|x l IH]; intros [|n] [|m] H; cbn; auto;
    contradiction.
Qed.

(** X13: [stopListening] reaches only the object the ref points to: every other
    recognition object, such as one left running by an earlier restart,
    keeps its status and goes on delivering events. *)
Theorem stopListening_stops_only_current :
  forall (rid : nat) (r : Recognition) (h : Hook),
    recognitionRef h <> Some rid ->
    nth_error (recognitions h) rid = Some r ->
    nth_error (recognitions (stopListening h)) rid = Some r
    /\ nth_error (recognitions (effect_cleanup h)) rid = Some r.
Proof.
  intros rid r h Href Hr. unfold stopListening, effect_cleanup.
  destruct (recognitionRef h) as [cur|]; cbn; [|auto].
  rewrite nth_error_update_nth_other by congruence. auto.
Qed.

Lemma stopListening_stops_only_current_witness :
  recognitionRef hook_after_cooldown = Some 1
  /\ option_map status
       (nth_error (recognitions (stopListening hook_after_cooldown)) 0)
     = Some Running.
Proof.
  split; [vm_compute; reflexivity|].
  assert (recognitionRef hook_after_cooldown <> Some 0) as H1
    by (vm_compute; discriminate).
  assert (nth_error (recognitions hook_after_cooldown) 0
          = Some {| captured := {| c_enabled := true;
                                   c_permissionStatus := granted;
                                   c_triggerPhrase := "Help Aura" |};
                    status := Running |}) as H2 by (vm_compute; reflexivity).
  destruct (stopListening_stops_only_current 0 _ hook_after_cooldown H1 H2)
    as [H _].
  rewrite H. reflexivity.
Defined.

End HookExtras.

(** ** The service: what each method returns and which calls it makes *)

Module ServiceExtras.
Import UseAuraState ApiService App AlertFacts PipelineFacts JsStringFacts Scenario.

#[local] Arguments detectThreat : simpl never.

Lemma string_app_assoc (a b c : string) :
  ((a ++ b) ++ c = a ++ (b ++ c))%string.
Proof. induction a as [|x a IH]; cbn; [reflexivity | rewrite IH; reflexivity]. Qed.

Lemma transcribeAudio_run (env : Env) (w : World) :
  transcribeAudio env w
  = (Normal (transcribed_text env),
     {| app_state := app_state w; calls := calls w ++ [CallTranscribe] |}).
Proof.
  unfold transcribeAudio, transcribed_text. run_js.
  destruct (transcription_api env) as [response|e]; cbn; [|reflexivity].
  destruct (ok response); cbn; [|reflexivity].
  destruct (body response) as [result|e]; cbn; [|reflexivity].
  destruct (text result) as [[|c t]|]; reflexivity.
Qed.

(** X14: [transcribeAudio] never throws: it returns the text of the response
    (the empty string when the field is absent) when the call succeeds, and
    the mock transcript on every failure, after exactly one call. *)
Theorem transcribeAudio_never_throws :
  forall (env : Env) (w : World),
    exists t,
      transcribeAudio env w
      = (Normal t,
         {| app_state := app_state w; calls := calls w ++ [CallTranscribe] |})
      /\ (transcription_fails env = true -> t = mock_transcription)
      /\ (forall response result,
            transcription_api env = Normal response ->
            ok response = true ->
            body response = Normal result ->
            t = match text result with Some x => x | None => ""%string end).
Proof.
  intros env w. exists (transcribed_text env).
  split; [apply transcribeAudio_run|]. unfold transcribed_text, transcription_fails.
  split.
  - destruct (transcription_api env) as [response|e]; [|reflexivity].
    destruct (ok response); cbn; [|reflexivity].
    destruct (body response); [discriminate | reflexivity].
  - intros response result -> -> ->. reflexivity.
Qed.

Lemma chat_reply_nonempty (env : Env) (t : string) (mode : bool) :
  chat_reply env t mode <> ""%string.
Proof.
  unfold chat_reply. cbv zeta.
  assert ((if mode then assertive_mock else calm_mock) <> ""%string) as Hm
    by (destruct mode; discriminate).
  destruct (chat_api env _ t) as [response|e]; [|exact Hm].
  destruct (ok response); [|exact Hm].
  destruct (body response) as [result|e]; [|exact Hm].
  unfold first_content. destruct (choices result) as [l|]; [|exact Hm].
  destruct (nth_error l 0) as [[[|c s]|]|]; discriminate.
Qed.

(** X15: [getAIResponse] never throws and never returns the empty string; it
    makes one chat call, with the assertive system prompt exactly when
    [isAssertiveMode] is set, and when that call fails it returns the mock
    reply of the mode. *)
Theorem getAIResponse_always_replies :
  forall (env : Env) (t : string) (isAssertiveMode : bool) (w : World),
    let systemPrompt := if isAssertiveMode then assertive_prompt else calm_prompt in
    exists reply,
      getAIResponse env t isAssertiveMode w
      = (Normal reply,
         {| app_state := app_state w;
            calls := calls w ++ [CallChat systemPrompt t] |})
      /\ reply <> ""%string
      /\ (chat_fails env systemPrompt t = true ->
          reply = if isAssertiveMode then assertive_mock else calm_mock).
Proof.
  intros env t mode w systemPrompt. exists (chat_reply env t mode).
  split; [apply getAIResponse_run|]. split; [apply chat_reply_nonempty|].
  unfold chat_reply, chat_fails. cbv zeta. fold systemPrompt.
  destruct (chat_api env systemPrompt t) as [response|e]; [|reflexivity].
  destruct (ok response); cbn; [|reflexivity].
  destruct (body response) as [result|e]; [|reflexivity].
  unfold first_content. destruct (choices result); [discriminate | reflexivity].
Qed.

Lemma generateSpeech_run (env : Env) (t : string) (w : World) :
  generateSpeech env t w
  = (Normal (speech_size env t),
     {| app_state := app_state w; calls := calls w ++ [CallTts t] |}).
Proof.
  unfold generateSpeech, speech_size. run_js.
  destruct (tts_api env t) as [response|e]; cbn; [|reflexivity].
  destruct (ok response); cbn; [|reflexivity].
  destruct (body response); reflexivity.
Qed.

#[local] Arguments generateSpeech : simpl never.

(** X16: [playAudioResponse] throws exactly when speech was synthesised (the
    blob is not empty) and the audio element reports an error; when
    synthesis fails it falls back to the browser's own speech, if there is
    one, and returns. *)
Theorem playAudioResponse_throws_iff :
  forall (env : Env) (t : string) (w : World),
    ((exists e, fst (playAudioResponse env t w) = Throw e)
     <-> (0 < speech_size env t /\ exists e, audio_playback env = Throw e))
    /\ (speech_size env t = 0 ->
        playAudioResponse env t w
        = (Normal tt,
           {| app_state := app_state w;
              calls := calls w ++ CallTts t ::
                       (if has_speechSynthesis env
                        then [CallSpeak t None] else []) |})).
Proof.
  intros env t w. unfold playAudioResponse. run_js.
  rewrite generateSpeech_run. cbn.
  destruct (speech_size env t) as [|n]; cbn.
  - split.
    + split.
      * intros [e H]. destruct (has_speechSynthesis env); discriminate.
      * intros [H _]. lia.
    + intros _. destruct (has_speechSynthesis env); cbn;
        rewrite <- ?app_assoc; reflexivity.
  - split; [|discriminate]. split.
    + intros [e H]. split; [lia|].
      destruct (audio_playback env) as [[]|e']; [discriminate | eauto].
    + intros [_ [e H]]. rewrite H. cbn. eauto.
Qed.

#[local] Arguments transcribeAudio : simpl never.
#[local] Arguments getAIResponse : simpl never.

(** X17: [processAudioWorkflow] never throws, for all its rethrowing [catch]:
    it transcribes, sets [threat_detected] to [detectThreat] of the
    transcript, and asks for the reply in assertive mode exactly when a
    threat was detected. *)
Theorem processAudioWorkflow_never_throws :
  forall (env : Env) (w : World),
    exists r,
      processAudioWorkflow env w
      = (Normal r,
         {| app_state := app_state w;
            calls := calls w
                     ++ [CallTranscribe;
                         CallChat (if threat_detected r
                                   then assertive_prompt else calm_prompt)
                                  (Types.transcription r)] |})
      /\ Types.transcription r = transcribed_text env
      /\ threat_detected r = detectThreat (Types.transcription r)
      /\ ai_response r <> ""%string.
Proof.
  intros env w. unfold processAudioWorkflow. run_js.
  rewrite transcribeAudio_run. cbn. rewrite getAIResponse_run. cbn.
  exists {| Types.transcription := transcribed_text env;
            threat_detected := detectThreat (transcribed_text env);
            ai_response := chat_reply env (transcribed_text env)
                             (detectThreat (transcribed_text env)) |}.
  cbn. rewrite <- app_assoc. repeat split. apply chat_reply_nonempty.
Qed.

Lemma includes_context (s k a b : string) :
  includes s k = true -> includes (a ++ s ++ b) k = true.
Proof.
  rewrite !includes_iff. intros (l & r & ->).
  exists (a ++ l)%string, (r ++ b)%string.
  rewrite !string_app_assoc. reflexivity.
Qed.

(** X18: Threat detection ignores letter case, and a threat stays a threat when
    text is added before and after. *)
Theorem detectThreat_case_and_context :
  forall t a b : string,
    detectThreat (toLowerCase t) = detectThreat t
    /\ (detectThreat t = true -> detectThreat (a ++ t ++ b) = true).
Proof.
  intros t a b. unfold detectThreat. split.
  - rewrite MatcherExtras.toLowerCase_idempotent. reflexivity.
  - rewrite !existsb_exists. intros (k & Hin & H). exists k. split; [exact Hin|].
    rewrite !MatcherExtras.toLowerCase_app. apply includes_context. exact H.
Qed.

(** X19: The search for a male voice accepts every voice whose name contains
    "female", in any letter case. *)
Theorem female_voice_passes_for_male :
  forall voiceName : string,
    includes (toLowerCase voiceName) "female" = true ->
    is_male_voice voiceName = true.
Proof.
  intros voiceName H. unfold is_male_voice.
  apply includes_iff in H as (l & r & H).
  assert (includes (toLowerCase voiceName) "male" = true) as ->; [|reflexivity].
  apply includes_iff. exists (l ++ "fe")%string, r.
  rewrite H, !string_app_assoc. reflexivity.
Qed.

Lemma female_voice_passes_for_male_witness :
  is_male_voice "Google UK English Female" = true.
Proof. apply female_voice_passes_for_male. reflexivity. Defined.

Lemma play_warnings_from_run (env : Env) (ws : list string) :
  forall (i n : nat) (w : World),
    has_speechSynthesis env = true ->
    i + List.length ws = n ->
    play_warnings_from env n i ws w
    = (Normal tt,
       {| app_state := app_state w;
          calls := calls w
                   ++ speak_and_wait (find is_male_voice (voices env)) ws |}).
Proof.
  induction ws as [|x ws IH]; intros i n w Hs Hn.
  - cbn. run_js. rewrite app_nil_r. destruct w; reflexivity.
  - cbn [play_warnings_from]. run_js. rewrite Hs.
    destruct ws as [|y ws].
    + cbn in Hn. assert ((i <? n - 1)%nat = false) as -> by (apply Nat.ltb_ge; lia).
      cbn. reflexivity.
    + cbn [List.length] in Hn.
      assert ((i <? n - 1)%nat = true) as -> by (apply Nat.ltb_lt; lia).
      cbn -[play_warnings_from speak_and_wait].
      rewrite (IH (S i) n) by (cbn [List.length]; auto; lia).
      cbn -[speak_and_wait].
      change (speak_and_wait (find is_male_voice (voices env)) (x :: y :: ws))
        with (CallSpeak x (find is_male_voice (voices env))
              :: CallWait 10000 :: speak_and_wait (find is_male_voice (voices env))
                                     (y :: ws)).
      rewrite <- !app_assoc. reflexivity.
Qed.

(** X20: [playEmergencyWarnings] never throws.  With speech synthesis it speaks
    the four warnings in order, each with the first voice that passes for
    male, and waits 10 s after each but the last; without it, it does
    nothing. *)
Theorem playEmergencyWarnings_script :
  forall (env : Env) (w : World),
    playEmergencyWarnings env w
    = (Normal tt,
       {| app_state := app_state w;
          calls := calls w
                   ++ (if has_speechSynthesis env
                       then speak_and_wait (find is_male_voice (voices env))
                              emergencyWarnings
                       else []) |})
    /\ List.length (speak_and_wait (find is_male_voice (voices env))
                      emergencyWarnings) = 7.
Proof.
  intros env w. split; [|reflexivity].
  unfold playEmergencyWarnings. unfold try_catch.
  destruct (has_speechSynthesis env) eqn:Hs.
  - rewrite (play_warnings_from_run env emergencyWarnings 0
               (List.length emergencyWarnings) w Hs eq_refl).
    reflexivity.
  - unfold emergencyWarnings. cbn [play_warnings_from List.length]. run_js.
    rewrite Hs. cbn. rewrite app_nil_r. destruct w; reflexivity.
Qed.

Lemma env_or_placeholder (v : option string) (placeholder : string) :
  placeholder <> ""%string ->
  (String.eqb (env_or v placeholder) placeholder = true
   <-> v = None \/ v = Some ""%string \/ v = Some placeholder)
  /\ is_empty (env_or v placeholder) = false.
Proof.
  intro Hp. unfold env_or, or_else. split.
  - rewrite String.eqb_eq. split.
    + destruct v as [[|c x]|]; auto. intros <-. auto.
    + intros [-> | [-> | ->]]; [reflexivity..|].
      destruct placeholder; reflexivity.
  - destruct v as [[|c x]|]; cbn; destruct placeholder; try reflexivity;
      contradiction.
Qed.

(** X21: The backend counts as unconfigured exactly when one of the two
    variables is absent, empty or still the placeholder; then the alert
    methods send nothing, and otherwise each sends exactly one request, to
    its own function under [SUPABASE_URL/functions/v1], with the user and
    the location it was given. *)
Theorem alert_requests :
  forall (env : Env) (userId : string) (location : Location) (w : World),
    (supabase_unconfigured env = true
     <-> (VITE_SUPABASE_URL env = None \/ VITE_SUPABASE_URL env = Some ""%string
          \/ VITE_SUPABASE_URL env = Some "your-supabase-url"%string)
         \/ (VITE_SUPABASE_ANON_KEY env = None
             \/ VITE_SUPABASE_ANON_KEY env = Some ""%string
             \/ VITE_SUPABASE_ANON_KEY env = Some "your-supabase-anon-key"%string))
    /\ snd (triggerSmsAlert env userId location w)
       = {| app_state := app_state w;
            calls := (calls w ++ [EnterSmsAlert userId location])
                     ++ (if supabase_unconfigured env then []
                         else [CallAlert
                                 (SUPABASE_URL env ++ "/functions/v1"
                                  ++ "/send-aura-alert")%string
                                 userId location]) |}
    /\ snd (triggerSOSAlert env userId location w)
       = {| app_state := app_state w;
            calls := (calls w ++ [EnterSOSAlert userId location])
                     ++ (if supabase_unconfigured env then []
                         else [CallAlert
                                 (SUPABASE_URL env ++ "/functions/v1"
                                  ++ "/send-sos-alert")%string
                                 userId location]) |}.
Proof.
  intros env userId location w. split; [|split].
  - unfold supabase_unconfigured, SUPABASE_URL, SUPABASE_ANON_KEY.
    destruct (env_or_placeholder (VITE_SUPABASE_URL env) "your-supabase-url")
      as [Hu1 Hu2]; [discriminate|].
    destruct (env_or_placeholder (VITE_SUPABASE_ANON_KEY env)
                "your-supabase-anon-key") as [Hk1 Hk2]; [discriminate|].
    rewrite Hu2, Hk2. cbn [orb]. rewrite orb_false_r, orb_true_iff, Hu1, Hk1.
    reflexivity.
  - rewrite triggerSmsAlert_run. unfold baseUrl.
    rewrite string_app_assoc. reflexivity.
  - rewrite triggerSOSAlert_run. unfold baseUrl.
    rewrite string_app_assoc. reflexivity.
Qed.

End ServiceExtras.

(** ** The handlers of the application *)

Module AppExtras.
Import UseAuraState ApiService App AlertFacts PipelineFacts ServiceExtras
  AlertClaims Scenario.

#[local] Arguments triggerSOSAlert : simpl never.
#[local] Arguments triggerSmsAlert : simpl never.
#[local] Arguments processAudioWorkflow : simpl never.
#[local] Arguments playAudioResponse : simpl never.
#[local] Arguments generateSpeech : simpl never.
#[local] Arguments detectThreat : simpl never.
#[local] Arguments transcribeAudio : simpl never.
#[local] Arguments getAIResponse : simpl never.

Lemma processAudioWorkflow_run (env : Env) (w : World) :
  processAudioWorkflow env w
  = (Normal (pipeline_result env),
     {| app_state := app_state w;
        calls := (calls w ++ [CallTranscribe])
                 ++ [CallChat (if detectThreat (transcribed_text env)
                               then assertive_prompt else calm_prompt)
                              (transcribed_text env)] |}).
Proof.
  unfold processAudioWorkflow, pipeline_result. run_js.
  rewrite transcribeAudio_run. cbn. rewrite getAIResponse_run. reflexivity.
Qed.


Lemma playAudioResponse_fails (env : Env) (t : string) (w : World) :
  playback_throws env t = true ->
  exists e,
    playAudioResponse env t w
    = (Throw e,
       {| app_state := app_state w;
          calls := calls w ++ [CallTts t; CallPlayAudio] |}).
Proof.
  unfold playback_throws. intro H.
  unfold playAudioResponse. run_js.
  rewrite generateSpeech_run. cbn.
  destruct (speech_size env t) as [|n]; cbn in *; [discriminate|].
  destruct (audio_playback env) as [[]|e]; [discriminate|].
  exists e. cbn. rewrite <- app_assoc. reflexivity.
Qed.

Lemma dispatches_app (w : World) (cs : list Call) :
  dispatches {| app_state := app_state w; calls := calls w ++ cs |}
  = dispatches w
    ++ filter (fun c => match c with
                        | EnterSmsAlert _ _ | EnterSOSAlert _ _ => true
                        | _ => false
                        end) cs.
Proof. unfold dispatches. cbn. apply filter_app. Qed.

(** Without a captured segment, or while Aura is not listening,
    [processAudio] does nothing at all. *)
Theorem processAudio_needs_segment :
  forall (env : Env) (w : World),
    audioBlob (app_state w) && isListening (aura (app_state w)) = false ->
    processAudio env w = (Normal tt, w).
Proof.
  intros env w H. unfold processAudio. run_js. rewrite H. reflexivity.
Qed.

Lemma processAudio_needs_segment_witness :
  processAudio env_offline world0 = (Normal tt, world0).
Proof. apply processAudio_needs_segment. reflexivity. Defined.



(** X23: When playback throws, [processAudio] swallows the error before it
    looks at the threat flag: no alert is dispatched and the state is left
    as it was, even if a threat was detected; the segment is not cleared. *)
Theorem processAudio_playback_failure_skips_alert :
  forall (env : Env) (w : World),
    audioBlob (app_state w) && isListening (aura (app_state w)) = true ->
    playback_throws env (ai_response (pipeline_result env)) = true ->
    let w' := snd (processAudio env w) in
    fst (processAudio env w) = Normal tt
    /\ state (aura (app_state w')) = state (aura (app_state w))
    /\ dispatches w' = dispatches w
    /\ audioBlob (app_state w') = audioBlob (app_state w)
    /\ isProcessing (app_state w') = false.
Proof.
  intros env w Hready Hplay. unfold processAudio. run_js.
  rewrite Hready. cbn. rewrite processAudioWorkflow_run. cbn.
  match goal with
  | |- context [playAudioResponse env ?t ?w0] =>
      destruct (playAudioResponse_fails env t w0 Hplay) as [e ->]
  end.
  cbn. repeat split.
  unfold dispatches. cbn [calls]. rewrite !filter_app. cbn.
  rewrite !app_nil_r. reflexivity.
Qed.


Lemma processAudio_playback_failure_skips_alert_witness :
  threat_detected (pipeline_result env_playback_fails) = true
  /\ state (aura (app_state (snd (processAudio env_playback_fails world_recording))))
     = ACTIVE
  /\ dispatches (snd (processAudio env_playback_fails world_recording)) = []
  /\ audioBlob (app_state (snd (processAudio env_playback_fails world_recording)))
     = true.
Proof.
  split; [vm_compute; reflexivity|].
  destruct (processAudio_playback_failure_skips_alert env_playback_fails
              world_recording eq_refl eq_refl) as (_ & H1 & H2 & H3 & _).
  repeat split; assumption.
Defined.


(** X25: With a known position [handleSOSActivate] enters SOSActive, dispatches
    exactly one SOS alert carrying the user and the position, records what
    the service returned, shows the confirmation view and ends
    processing. *)
Theorem handleSOSActivate_with_position :
  forall (env : Env) (w : World) (coords : Location),
    geolocation env = GeoPosition coords ->
    let uid := id (userProfile (app_state w)) in
    let w' := snd (handleSOSActivate env w) in
    fst (handleSOSActivate env w) = Normal tt
    /\ sosAlertResult (aura (app_state w'))
       = Some (match collaborator_answer env "/send-sos-alert" uid coords with
               | Some r => r
               | None => sos_degraded env coords
               end)
    /\ dispatches w' = dispatches w ++ [EnterSOSAlert uid coords]
    /\ state (aura (app_state w')) = SOS_ACTIVE
    /\ currentView (app_state w') = sos_confirmation
    /\ sosProcessing (app_state w') = false.
Proof.
  intros env w coords Hgeo uid w'. split.
  - unfold handleSOSActivate, App.getCurrentLocation. run_js.
    rewrite Hgeo. cbn. rewrite triggerSOSAlert_run. reflexivity.
  - apply handleSOSActivate_located. exact Hgeo.
Qed.

Lemma handleSOSActivate_with_position_witness :
  dispatches (snd (handleSOSActivate env_offline world0))
  = [EnterSOSAlert "user_1" somewhere]
  /\ state (aura (app_state (snd (handleSOSActivate env_offline world0))))
     = SOS_ACTIVE.
Proof.
  destruct (handleSOSActivate_with_position env_offline world0 somewhere eq_refl)
    as (_ & _ & H1 & H2 & _).
  split; assumption.
Defined.

(** X26: [handleAllClear] never throws and always resets Aura to its initial
    cells and returns to the home view; the all-clear message is sent only
    when the position could be obtained. *)
Theorem handleAllClear_always_resets :
  forall (env : Env) (w : World),
    let w' := snd (handleAllClear env w) in
    fst (handleAllClear env w) = Normal tt
    /\ aura (app_state w') = UseAuraState.initial
    /\ currentView (app_state w') = home
    /\ dispatches w'
       = dispatches w
         ++ match geolocation env with
            | GeoPosition coords =>
                [EnterSmsAlert (id (userProfile (app_state w))) coords]
            | _ => []
            end.
Proof.
  intros env w. unfold handleAllClear, App.getCurrentLocation. run_js.
  destruct (geolocation env) as [|coords|code]; cbn;
    rewrite ?triggerSmsAlert_run; cbn; repeat split;
    unfold dispatches; cbn [calls]; rewrite !filter_app; cbn;
    destruct (supabase_unconfigured env); cbn; rewrite ?app_nil_r; reflexivity.
Qed.

(** X27: [handleEmergencyVoiceActivate] never throws: it enters EmergencyVoice
    and shows the fake call in every case, and sends the silent alert only
    when the position could be obtained.  [handleEndCall] after it cancels
    pending speech, resets Aura to its initial cells and returns to the home
    view. *)
Theorem emergency_voice_call_round_trip :
  forall (env : Env) (w : World),
    let w1 := snd (handleEmergencyVoiceActivate env w) in
    let w2 := snd (handleEndCall env w1) in
    fst (handleEmergencyVoiceActivate env w) = Normal tt
    /\ state (aura (app_state w1)) = EMERGENCY_VOICE
    /\ currentView (app_state w1) = fake_call
    /\ emergencyVoiceActive (app_state w1) = true
    /\ dispatches w1
       = dispatches w
         ++ match geolocation env with
            | GeoPosition coords =>
                [EnterSmsAlert (id (userProfile (app_state w))) coords]
            | _ => []
            end
    /\ fst (handleEndCall env w1) = Normal tt
    /\ aura (app_state w2) = UseAuraState.initial
    /\ currentView (app_state w2) = home
    /\ emergencyVoiceActive (app_state w2) = false
    /\ calls w2 = calls w1 ++ (if has_speechSynthesis env
                               then [CallCancelSpeech] else []).
Proof.
  intros env w.
  unfold handleEndCall, stopEmergencyWarnings, handleEmergencyVoiceActivate,
    App.getCurrentLocation. run_js.
  destruct (geolocation env) as [|coords|code]; cbn;
    rewrite ?triggerSmsAlert_run; cbn;
    destruct (has_speechSynthesis env); cbn; run_js; cbn;
    repeat split; rewrite ?app_nil_r; try reflexivity;
    unfold dispatches; cbn [calls]; rewrite !filter_app; cbn;
    destruct (supabase_unconfigured env); cbn; rewrite ?app_nil_r; reflexivity.
Qed.

(** X28: [handleAuraActivate] never throws: when recording starts Aura is
    Active and listening; when the microphone cannot be opened the user is
    told so and Aura is back to Idle and not listening, with transcript and
    reply cleared. *)
Theorem handleAuraActivate_outcomes :
  forall (env : Env) (w : World),
    let w' := snd (handleAuraActivate env w) in
    fst (handleAuraActivate env w) = Normal tt
    /\ match startRecording_api env with
       | Normal _ =>
           state (aura (app_state w')) = ACTIVE
           /\ isListening (aura (app_state w')) = true
           /\ calls w' = calls w ++ [CallStartRecording]
       | Throw _ =>
           state (aura (app_state w')) = IDLE
           /\ isListening (aura (app_state w')) = false
           /\ UseAuraState.transcription (aura (app_state w')) = ""%string
           /\ aiResponse (aura (app_state w')) = ""%string
           /\ exists text,
                calls w' = calls w ++ [CallStartRecording; CallAlertDialog text]
       end.
Proof.
  intros env w. unfold handleAuraActivate. run_js.
  destruct (startRecording_api env) as [[]|e]; cbn; repeat split.
  eexists. rewrite <- app_assoc. reflexivity.
Qed.

End AppExtras.

(** ** The state holder, the location hook and the transcript of a result event *)

Module HookletExtras.
Import UseAuraState UseLocation TriggerMatcher MatcherClaims ServiceExtras.

Lemma run_ops_app (ops1 ops2 : list Operation) (h : AuraHook) :
  run_ops (ops1 ++ ops2) h = run_ops ops2 (run_ops ops1 h).
Proof. unfold run_ops. apply fold_left_app. Qed.

(** X29: The safety state keeps no history: after any sequence of operations
    the state is the target of the last one, and a sequence that ends with
    [resetToIdle] leaves the hook in its initial cells, whatever came
    before. *)
Theorem safety_state_keeps_no_history :
  forall (ops : list Operation) (o : Operation) (h : AuraHook),
    state (run_ops (ops ++ [o]) h) = target o
    /\ run_ops (ops ++ [OpResetToIdle]) h = UseAuraState.initial
    /\ sosAlertResult (run_ops (ops ++ [OpDeactivate]) h)
       = sosAlertResult (run_ops ops h).
Proof.
  intros ops o h. rewrite !run_ops_app. cbn. repeat split.
  destruct o; reflexivity.
Qed.

(** [getCurrentLocation] resolves exactly when the browser delivers a
    position, which it then records with the error cleared; every failure
    rejects with its own message, records that message and keeps the last
    known position.  Loading is over in every case. *)
Theorem getCurrentLocation_outcomes :
  forall (geo : GeoOutcome) (h : LocationHook),
    let '(c, h') := UseLocation.getCurrentLocation geo h in
    isLoading h' = false
    /\ match geo with
       | GeoPosition coords =>
           c = Normal coords /\ location h' = Some coords /\ error h' = None
       | GeoUnsupported =>
           c = Throw "Geolocation is not supported by this browser"
           /\ location h' = location h
           /\ error h' = Some "Geolocation is not supported by this browser"%string
       | GeoFailure code =>
           c = Throw (errorMessage code)
           /\ location h' = location h
           /\ error h' = Some (errorMessage code)
           /\ errorMessage code <> ""%string
       end.
Proof.
  intros [|coords|code] h; cbn; repeat split. destruct code; discriminate.
Qed.

Lemma collect_spec (results : list SpeechResult) :
  forall f i,
    collect results f i
    = ((f ++ fold_right String.append ""
               (map sr_transcript (filter sr_isFinal results)))%string,
       (i ++ fold_right String.append ""
               (map sr_transcript
                  (filter (fun r => negb (sr_isFinal r)) results)))%string).
Proof.
  assert (forall s : string, (s ++ "")%string = s) as app_nil.
  { induction s as [|c s IH]; cbn; [reflexivity | rewrite IH; reflexivity]. }
  induction results as [|r rs IH]; intros f i; cbn.
  - rewrite !app_nil. reflexivity.
  - destruct (sr_isFinal r); cbn; rewrite IH, string_app_assoc; reflexivity.
Qed.

(** X8: The transcript of a result event is the concatenation of the final
    pieces from [resultIndex] on, and only when that is empty the
    concatenation of the interim pieces. *)
Theorem currentTranscript_prefers_final :
  forall (resultIndex : nat) (results : list SpeechResult),
    let fresh := skipn resultIndex results in
    let finals := fold_right String.append ""%string
                    (map sr_transcript (filter sr_isFinal fresh)) in
    let interims := fold_right String.append ""%string
                      (map sr_transcript
                         (filter (fun r => negb (sr_isFinal r)) fresh)) in
    currentTranscript resultIndex results
    = if String.eqb finals "" then interims else finals.
Proof.
  intros resultIndex results fresh finals interims.
  unfold currentTranscript. fold fresh. rewrite collect_spec. cbn.
  fold finals interims. destruct finals; reflexivity.
Qed.

(** X1: The condition of [onresult], for every transcript and trigger phrase:
    the phrase occurs in the transcript, or occurs with its first space
    removed, or is within distance 2 of the whole transcript, or some word
    is within distance 1 of 'help' while 'aura' occurs, or 'aurora'
    occurs. *)
Theorem onresult_condition :
  forall transcript triggerPhrase : string,
    let t := trim (toLowerCase transcript) in
    let p := trim (toLowerCase triggerPhrase) in
    triggerMatches transcript triggerPhrase
    = (includes t p
       || includes t (replace_first_space p)
       || (levenshteinDistance t p <=? 2)%nat
       || (existsb (fun word => (levenshteinDistance word "help" <=? 1)%nat)
                   (split_space t)
           && includes t "aura")
       || includes t "aurora").
Proof. intros transcript triggerPhrase. apply triggerMatches_unfolded. Qed.

End HookletExtras.

(** ** Claim C10: a failed transcription always reports a threat *)

Module PipelineClaims.
Import UseAuraState ApiService App AlertFacts PipelineFacts AppExtras Scenario.

#[local] Arguments triggerSmsAlert : simpl never.
#[local] Arguments processAudioWorkflow : simpl never.
#[local] Arguments playAudioResponse : simpl never.
#[local] Arguments detectThreat : simpl never.






End PipelineClaims.
